(** * Look-ahead scheduling of a score against the Web Audio timeline

    A shallow embedding of the two TypeScript components of the repository:

    - the [AudioPlayer] class of [src/utils/audioPlayer.ts]
      ([initialize], [resume], [playChord], [playNote], [getFrequency]);
    - the scheduler of the article ([scheduleNotePlay], [playAllNotes]).

    Conventions of the embedding.

    - A JavaScript [number] is an IEEE 754 double: a primitive float, whose
      operations round to nearest, ties to even, and have NaN, the two
      infinities and the two zeros.
    - The methods of the class run in a small state-and-exception monad over
      the state they can touch: the global realm (is there a [window], which
      constructors does it offer) and the fields of [this].  An exception is
      what JavaScript or the Web Audio interface raises: reading a property
      of [null], calling [new] on [undefined], a [TypeError] for an argument
      that is not a finite number, a [RangeError] for a negative time, an
      [InvalidStateError] for a call the state of the node forbids.
    - The Web Audio objects are a store inside the audio context: nodes are
      allocated in it and referred to by their index.  Reading
      [currentTime] asks the hardware clock, so every read is a separate
      observation of the timeline.  The calls on the nodes are recorded as
      they are made, with the numbers they were given.
    - The callbacks handed to the scheduler are opaque client code; a timed
      action is the sequence of calls its closure makes. *)

From Stdlib Require Import ZArith Lia Bool Floats.
From stdpp Require Import gmap strings list.

Set Warnings "-inexact-float".

Open Scope float_scope.

Abbreviation number := float.

(** ** JavaScript values seen by the pitch lookup *)

Module JS.

(** What an indexing expression [obj[key]] on a plain object can evaluate
    to: [undefined], a number, or some other object (a function of the
    prototype, the prototype itself), which is named after its property. *)
Inductive Value : Type :=
| Undefined
| Number (n : number)
| Object (name : string).

(** ToBoolean: of the numbers, the two zeros and NaN are falsy. *)
Definition truthy (v : Value) : bool :=
  match v with
  | Undefined => false
  | Number n => negb ((n =? 0) || is_nan n)
  | Object _ => true
  end.

(** [a || b] *)
Definition or (a b : Value) : Value := if truthy a then a else b.

(** ToNumber: [undefined] is NaN, and so is every object met here (a
    function prints as its source text, the prototype as
    ["[object Object]"], and neither text is a numeral). *)
Definition ToNumber (v : Value) : number :=
  match v with
  | Undefined => nan
  | Number n => n
  | Object _ => nan
  end.

(** The properties every object literal inherits from [Object.prototype]. *)
Definition Object_prototype : list string :=
  [ "constructor"; "hasOwnProperty"; "isPrototypeOf";
    "propertyIsEnumerable"; "toLocaleString"; "toString"; "valueOf";
    "__proto__"; "__defineGetter__"; "__defineSetter__";
    "__lookupGetter__"; "__lookupSetter__" ]%string.

(** [literal[key]] for an object literal whose own properties are [own]:
    an own property first, then the prototype chain. *)
Definition get (own : gmap string number) (key : string) : Value :=
  match own !! key with
  | Some n => Number n
  | None =>
      if bool_decide (key ∈ Object_prototype) then Object key else Undefined
  end.

Inductive Error : Type :=
| TypeError
| RangeError
| InvalidStateError.

(** What a library call on one object comes to: the object as the call
    leaves it, or the exception raised. *)
Inductive Result (A : Type) : Type :=
| Done (a : A)
| Raised (e : Error).
Arguments Done {A} a.
Arguments Raised {A} e.

(** The conversion of an argument declared [double] in Web IDL: a
    [TypeError] unless the number is finite. *)
Definition to_double (x : number) : option Error :=
  if is_finite x then None else Some TypeError.

(** The conversion of an argument declared [float]: a [TypeError] unless
    the number is finite and its nearest single-precision value is finite
    too, that is, unless it is below [2^128 - 2^103] in magnitude. *)
Definition to_float (x : number) : option Error :=
  if is_finite x && (abs x <? 0x1.ffffffp127) then None else Some TypeError.

(** The first of two checks that fails. *)
Definition and_then (a b : option Error) : option Error :=
  match a with
  | Some e => Some e
  | None => b
  end.

End JS.

(** ** The state-and-exception monad of the methods *)

Inductive Completion (S A : Type) : Type :=
| Normal (a : A) (s : S)
| Throw (e : JS.Error) (s : S).
Arguments Normal {S A} a s.
Arguments Throw {S A} e s.

Definition final {S A} (c : Completion S A) : S :=
  match c with
  | Normal _ s => s
  | Throw _ s => s
  end.

Definition M (S A : Type) : Type := S → Completion S A.

Definition ret {S A} (a : A) : M S A := fun s => Normal a s.

Definition bind {S A B} (c : M S A) (k : A → M S B) : M S B :=
  fun s =>
    match c s with
    | Normal a s' => k a s'
    | Throw e s' => Throw e s'
    end.

Definition gets {S A} (f : S → A) : M S A := fun s => Normal (f s) s.

Definition modify {S} (f : S → S) : M S unit := fun s => Normal tt (f s).

Notation "'let*' x := c 'in' k" := (bind c (fun x => k))
  (at level 10, x name, c at level 100, k at level 200).
Notation "c ;;; k" := (bind c (fun _ => k))
  (at level 100, k at level 200, right associativity).

(** [array.forEach(f)] *)
Fixpoint forEach {S A} (f : A → M S unit) (l : list A) : M S unit :=
  match l with
  | [] => ret tt
  | x :: rest => f x ;;; forEach f rest
  end.

(** [n] calls in a row. *)
Fixpoint times {St} (n : nat) (c : M St unit) : M St unit :=
  match n with
  | O => ret tt
  | S n' => c ;;; times n' c
  end.

(** ** The Web Audio objects the player drives *)

Module WebAudio.

Inductive AudioContextState : Type :=
| suspended
| running
| closed.

Inductive OscillatorType : Type :=
| sine
| square
| sawtooth
| triangle.

(** Where the output of a node is routed. *)
Inductive Output : Type :=
| toGain (gainNode : nat)
| toDestination.

(** The automation timeline of an [AudioParam]. *)
Inductive AutomationEvent : Type :=
| SetValueAtTime (value startTime : number)
| ExponentialRampToValueAtTime (value endTime : number).

(** [frequency] is the number last assigned to [frequency.value]. *)
Record OscillatorNode : Type := mkOscillator {
  frequency : number;
  type : OscillatorType;
  osc_output : option Output;
  startTime : option number;
  stopTime : option number
}.

Record GainNode : Type := mkGain {
  gain : list AutomationEvent;
  gain_output : option Output
}.

(** The context: its state, the hardware clock behind [currentTime] and
    the nodes created so far.  [timeline k] is what the clock shows at the
    [k]-th time the program looks at it, [reads] counts the looks. *)
Record AudioContext : Type := mkContext {
  contextId : nat;
  state : AudioContextState;
  timeline : nat → number;
  reads : nat;
  oscillators : list OscillatorNode;
  gainNodes : list GainNode
}.

Definition createOscillator : M AudioContext nat :=
  fun c =>
    Normal (length (oscillators c))
      (mkContext (contextId c) (state c) (timeline c) (reads c)
         (oscillators c ++ [mkOscillator 440 sine None None None])
         (gainNodes c)).

Definition createGain : M AudioContext nat :=
  fun c =>
    Normal (length (gainNodes c))
      (mkContext (contextId c) (state c) (timeline c) (reads c) (oscillators c)
         (gainNodes c ++ [mkGain [] None])).

(** The getter [currentTime]: one more observation of the clock. *)
Definition currentTime : M AudioContext number :=
  fun c =>
    Normal (timeline c (reads c))
      (mkContext (contextId c) (state c) (timeline c) (S (reads c))
         (oscillators c) (gainNodes c)).

(** A call on the oscillator [o]: the node is replaced by what the call
    makes of it, and left as it is when the call raises.  A reference
    always denotes a node of its context; on an index that denotes none
    the store is left alone. *)
Definition onOscillator (o : nat) (f : OscillatorNode → JS.Result OscillatorNode)
    : M AudioContext unit :=
  fun c =>
    match oscillators c !! o with
    | None => Normal tt c
    | Some n =>
        match f n with
        | JS.Done n' =>
            Normal tt
              (mkContext (contextId c) (state c) (timeline c) (reads c)
                 (<[o := n']> (oscillators c)) (gainNodes c))
        | JS.Raised e => Throw e c
        end
    end.

Definition onGain (g : nat) (f : GainNode → JS.Result GainNode)
    : M AudioContext unit :=
  fun c =>
    match gainNodes c !! g with
    | None => Normal tt c
    | Some n =>
        match f n with
        | JS.Done n' =>
            Normal tt
              (mkContext (contextId c) (state c) (timeline c) (reads c)
                 (oscillators c) (<[g := n']> (gainNodes c)))
        | JS.Raised e => Throw e c
        end
    end.

(** [oscillator.connect(target)] *)
Definition osc_connect (target : Output) (n : OscillatorNode)
    : JS.Result OscillatorNode :=
  JS.Done (mkOscillator (frequency n) (type n) (Some target) (startTime n) (stopTime n)).

(** [gainNode.connect(target)] *)
Definition gain_connect (target : Output) (n : GainNode) : JS.Result GainNode :=
  JS.Done (mkGain (gain n) (Some target)).

(** [oscillator.frequency.value = v].  The attribute is a [float]: the
    value assigned is converted to a number and refused with a
    [TypeError] when that is not a finite single-precision value. *)
Definition set_frequency (v : JS.Value) (n : OscillatorNode)
    : JS.Result OscillatorNode :=
  match JS.to_float (JS.ToNumber v) with
  | Some e => JS.Raised e
  | None =>
      JS.Done (mkOscillator (JS.ToNumber v) (type n) (osc_output n) (startTime n)
                 (stopTime n))
  end.

(** [oscillator.type = t] *)
Definition set_type (t : OscillatorType) (n : OscillatorNode)
    : JS.Result OscillatorNode :=
  JS.Done (mkOscillator (frequency n) t (osc_output n) (startTime n) (stopTime n)).

(** A time handed to the library must not be negative. *)
Definition time (t : number) : option JS.Error :=
  if t <? 0 then Some JS.RangeError else None.

(** The target of an exponential ramp must not be zero as a
    single-precision value: it must exceed [2^-150] in magnitude. *)
Definition ramp_target (v : number) : option JS.Error :=
  if abs v <=? 0x1p-150 then Some JS.RangeError else None.

(** What the library checks before it takes an automation event: the
    arguments are converted first (value a [float], time a [double]),
    then their ranges are checked. *)
Definition refused (e : AutomationEvent) : option JS.Error :=
  match e with
  | SetValueAtTime v t =>
      JS.and_then (JS.to_float v) (JS.and_then (JS.to_double t) (time t))
  | ExponentialRampToValueAtTime v t =>
      JS.and_then (JS.to_float v)
        (JS.and_then (JS.to_double t) (JS.and_then (ramp_target v) (time t)))
  end.

(** [gainNode.gain.setValueAtTime(...)] and the like: one more event on
    the automation timeline. *)
Definition automate (e : AutomationEvent) (n : GainNode) : JS.Result GainNode :=
  match refused e with
  | Some err => JS.Raised err
  | None => JS.Done (mkGain (gain n ++ [e]) (gain_output n))
  end.

(** [oscillator.start(when)]: once only, at a time that is not negative. *)
Definition start (when : number) (n : OscillatorNode) : JS.Result OscillatorNode :=
  match JS.to_double when with
  | Some e => JS.Raised e
  | None =>
      match startTime n with
      | Some _ => JS.Raised JS.InvalidStateError
      | None =>
          match time when with
          | Some e => JS.Raised e
          | None =>
              JS.Done (mkOscillator (frequency n) (type n) (osc_output n)
                         (Some when) (stopTime n))
          end
      end
  end.

(** [oscillator.stop(when)]: after [start], at a time that is not
    negative. *)
Definition stop (when : number) (n : OscillatorNode) : JS.Result OscillatorNode :=
  match JS.to_double when with
  | Some e => JS.Raised e
  | None =>
      match startTime n with
      | None => JS.Raised JS.InvalidStateError
      | Some _ =>
          match time when with
          | Some e => JS.Raised e
          | None =>
              JS.Done (mkOscillator (frequency n) (type n) (osc_output n)
                         (startTime n) (Some when))
          end
      end
  end.

(** [context.resume()], once its promise has settled: the context runs;
    the promise of a closed context is rejected. *)
Definition resume : M AudioContext unit :=
  fun c =>
    match state c with
    | closed => Throw JS.InvalidStateError c
    | _ =>
        Normal tt
          (mkContext (contextId c) running (timeline c) (reads c) (oscillators c)
             (gainNodes c))
    end.

(** A constructor ([AudioContext] or [webkitAudioContext]) of some
    browser: the state a new context starts in and the clock it is
    attached to. *)
Record Constructor : Type := mkConstructor {
  initialState : AudioContextState;
  hardwareClock : nat → number
}.

Definition construct (k : Constructor) (fresh : nat) : AudioContext :=
  mkContext fresh (initialState k) (hardwareClock k) 0 [] [].

End WebAudio.
Import WebAudio.

(** ** The global realm *)

Record Window : Type := mkWindow {
  window_AudioContext : option Constructor;
  window_webkitAudioContext : option Constructor
}.

(** [window] is absent outside a browser.  [constructed] counts the audio
    contexts (timeline clocks) that [new] has produced so far. *)
Record Realm : Type := mkRealm {
  window : option Window;
  constructed : nat
}.

(** ** [class AudioPlayer] *)

Record AudioPlayer : Type := mkAudioPlayer {
  audioContext : option AudioContext;
  isInitialized : bool
}.

(** [new AudioPlayer()]: the field initialisers. *)
Definition new_AudioPlayer : AudioPlayer := mkAudioPlayer None false.

(** What a method can touch: the realm and [this]. *)
Record Machine : Type := mkMachine {
  realm : Realm;
  self : AudioPlayer
}.

Definition boot (w : option Window) : Machine :=
  mkMachine (mkRealm w 0) new_AudioPlayer.

Definition set_audioContext (c : AudioContext) (m : Machine) : Machine :=
  mkMachine (realm m) (mkAudioPlayer (Some c) (isInitialized (self m))).

Definition set_isInitialized (b : bool) (m : Machine) : Machine :=
  mkMachine (realm m) (mkAudioPlayer (audioContext (self m)) b).

(** The completion of a call on the context, seen from the machine whose
    player holds that context. *)
Definition lift {A} (m : Machine) (r : Completion AudioContext A)
    : Completion Machine A :=
  match r with
  | Normal a c => Normal a (set_audioContext c m)
  | Throw e c => Throw e (set_audioContext c m)
  end.

(** [this.audioContext.op(...)]: a [TypeError] when the field is [null]. *)
Definition onContext {A} (op : M AudioContext A) : M Machine A :=
  fun m =>
    match audioContext (self m) with
    | None => Throw JS.TypeError m
    | Some c => lift m (op c)
    end.

(** The method body [p] does to a machine that has a context what [q]
    does to that context. *)
Definition lifts {A} (p : M Machine A) (q : M AudioContext A) : Prop :=
  ∀ m c, audioContext (self m) = Some c → p m = lift m (q c).

(** [new k()]: a [TypeError] when [k] is [undefined]. *)
Definition new (k : option Constructor) : M Machine AudioContext :=
  fun m =>
    match k with
    | None => Throw JS.TypeError m
    | Some k =>
        let r := realm m in
        Normal (construct k (constructed r))
               (mkMachine (mkRealm (window r) (S (constructed r))) (self m))
    end.

(** [a || b] on two constructors that may be undefined. *)
Definition or_else {A} (a b : option A) : option A :=
  match a with
  | Some _ => a
  | None => b
  end.

Module AudioPlayer.

(** [async initialize()].  The body has no [await]: it runs to its end
    when called, and an exception rejects the promise it returns. *)
Definition initialize : M Machine unit :=
  let* initialized := gets (fun m => isInitialized (self m)) in
  let* w := gets (fun m => window (realm m)) in
  match negb initialized, w with
  | true, Some w =>
      let* c := new (or_else (window_AudioContext w) (window_webkitAudioContext w)) in
      modify (set_audioContext c) ;;;
      modify (set_isInitialized true)
  | _, _ => ret tt
  end.

(** [async resume()], with the awaited promise settled. *)
Definition resume : M Machine unit :=
  let* ctx := gets (fun m => audioContext (self m)) in
  match ctx with
  | Some c =>
      match state c with
      | suspended => onContext WebAudio.resume
      | _ => ret tt
      end
  | None => ret tt
  end.

Definition noteMap : gmap string number :=
  list_to_map
    [ ("c/4", 261.63); ("d/4", 293.66); ("e/4", 329.63);
      ("f/4", 349.23); ("g/4", 392.00); ("a/4", 440.00);
      ("b/4", 493.88); ("c/5", 523.25); ("d/5", 587.33);
      ("e/5", 659.25); ("f/5", 698.46); ("g/5", 783.99);
      ("a/5", 880.00); ("b/5", 987.77) ]%string.

(** [return noteMap[note] || 440] *)
Definition getFrequency (note : string) : JS.Value :=
  JS.or (JS.get noteMap note) (JS.Number 440).

Definition playNote (frequency : JS.Value) (duration : number) : M Machine unit :=
  let* ctx := gets (fun m => audioContext (self m)) in
  match ctx with
  | None => ret tt
  | Some _ =>
      let* oscillator := onContext createOscillator in
      let* gainNode := onContext createGain in
      onContext (onOscillator oscillator (osc_connect (toGain gainNode))) ;;;
      onContext (onGain gainNode (gain_connect toDestination)) ;;;
      onContext (onOscillator oscillator (set_frequency frequency)) ;;;
      onContext (onOscillator oscillator (set_type sine)) ;;;
      let* t := onContext currentTime in
      onContext (onGain gainNode (automate (SetValueAtTime 0.3 t))) ;;;
      let* t := onContext currentTime in
      onContext (onGain gainNode
        (automate (ExponentialRampToValueAtTime 0.01 (t + duration)))) ;;;
      let* t := onContext currentTime in
      onContext (onOscillator oscillator (start t)) ;;;
      let* t := onContext currentTime in
      onContext (onOscillator oscillator (stop (t + duration)))
  end.

Definition playChord (keys : list string) (duration : number) : M Machine unit :=
  let* ctx := gets (fun m => audioContext (self m)) in
  match ctx with
  | None => ret tt
  | Some _ =>
      forEach (fun key =>
                 let frequency := getFrequency key in
                 playNote frequency duration)
              keys
  end.

End AudioPlayer.

(** ** What the calls of [playNote] do to the context

    The library calls of one [playNote], in the order the method makes
    them, as a program on the context alone. *)
Definition playNote_in (frequency : JS.Value) (duration : number)
    : M AudioContext unit :=
  let* oscillator := createOscillator in
  let* gainNode := createGain in
  onOscillator oscillator (osc_connect (toGain gainNode)) ;;;
  onGain gainNode (gain_connect toDestination) ;;;
  onOscillator oscillator (set_frequency frequency) ;;;
  onOscillator oscillator (set_type sine) ;;;
  let* t := currentTime in
  onGain gainNode (automate (SetValueAtTime 0.3 t)) ;;;
  let* t := currentTime in
  onGain gainNode (automate (ExponentialRampToValueAtTime 0.01 (t + duration))) ;;;
  let* t := currentTime in
  onOscillator oscillator (start t) ;;;
  let* t := currentTime in
  onOscillator oscillator (stop (t + duration)).

Definition playChord_in (keys : list string) (duration : number)
    : M AudioContext unit :=
  forEach (fun key => playNote_in (AudioPlayer.getFrequency key) duration) keys.

(** What one [playNote] that returns leaves in the context [c]: four more
    looks at the clock, one oscillator and one gain stage. *)
Definition playNote_on (frequency : number) (duration : number)
    (c : AudioContext) : AudioContext :=
  mkContext (contextId c) (state c) (timeline c) (4 + reads c)
    (oscillators c ++
       [mkOscillator frequency sine (Some (toGain (length (gainNodes c))))
          (Some (timeline c (2 + reads c)))
          (Some (timeline c (3 + reads c) + duration))])
    (gainNodes c ++
       [mkGain [SetValueAtTime 0.3 (timeline c (reads c));
                ExponentialRampToValueAtTime 0.01
                  (timeline c (1 + reads c) + duration)]
          (Some toDestination)]).

Definition playChord_on (keys : list string) (duration : number)
    (c : AudioContext) : AudioContext :=
  fold_left (fun c key =>
               playNote_on (JS.ToNumber (AudioPlayer.getFrequency key)) duration c)
            keys c.

(** A time the library takes: finite and not negative. *)
Definition valid_time (t : number) : bool := is_finite t && negb (t <? 0).

(** The first call of one [playNote] on [c] that the library refuses,
    with the exception it raises: the checks of the calls, in the order
    the method makes them. *)
Definition playNote_refused (frequency : JS.Value) (duration : number)
    (c : AudioContext) : option JS.Error :=
  JS.and_then (JS.to_float (JS.ToNumber frequency))
  (JS.and_then (refused (SetValueAtTime 0.3 (timeline c (reads c))))
  (JS.and_then (refused (ExponentialRampToValueAtTime 0.01
                           (timeline c (1 + reads c) + duration)))
  (JS.and_then (JS.to_double (timeline c (2 + reads c)))
  (JS.and_then (time (timeline c (2 + reads c)))
  (JS.and_then (JS.to_double (timeline c (3 + reads c) + duration))
               (time (timeline c (3 + reads c) + duration))))))).

(** The library takes every call of one [playNote] on [c]. *)
Definition playable_note (frequency : JS.Value) (duration : number)
    (c : AudioContext) : Prop :=
  playNote_refused frequency duration c = None.

(** From [c] to [c'] one oscillator and one gain node were created and
    nothing else of the context changed but the looks at the clock. *)
Definition one_more_tone (c c' : AudioContext) : Prop :=
  contextId c' = contextId c ∧ state c' = state c ∧ timeline c' = timeline c ∧
  (reads c ≤ reads c' ≤ 4 + reads c)%nat ∧
  ∃ o g, oscillators c' = oscillators c ++ [o] ∧ gainNodes c' = gainNodes c ++ [g].

(** The context [c] while one [playNote] runs on it: the oscillator [o]
    and the gain node [g] of the note behind the nodes of [c], after [k]
    looks at the clock. *)
Definition working (c : AudioContext) (k : nat) (o : OscillatorNode) (g : GainNode)
    : AudioContext :=
  mkContext (contextId c) (state c) (timeline c) (k + reads c)
    (oscillators c ++ [o]) (gainNodes c ++ [g]).

(** From [c] to [c'] at most [n] tones were created, each an oscillator
    with its gain node, behind the nodes of [c], which are as they were;
    nothing else of the context changed but the looks at the clock, at
    most four for a tone. *)
Definition more_tones (n : nat) (c c' : AudioContext) : Prop :=
  contextId c' = contextId c ∧ state c' = state c ∧ timeline c' = timeline c ∧
  (reads c ≤ reads c' ≤ 4 * n + reads c)%nat ∧
  ∃ os gs, oscillators c' = oscillators c ++ os ∧
           gainNodes c' = gainNodes c ++ gs ∧
           length os = length gs ∧ (length os ≤ n)%nat.

(** The library takes the calls of [playChord keys duration] on [c]. *)
Fixpoint playable_chord (keys : list string) (duration : number)
    (c : AudioContext) : Prop :=
  match keys with
  | [] => True
  | key :: rest =>
      playable_note (AudioPlayer.getFrequency key) duration c ∧
      playable_chord rest duration
        (playNote_on (JS.ToNumber (AudioPlayer.getFrequency key)) duration c)
  end.

(** The tone of the [i]-th key of a chord played on [c]. *)
Definition tone (c : AudioContext) (duration : number) (i : nat) (key : string)
    : OscillatorNode :=
  mkOscillator (JS.ToNumber (AudioPlayer.getFrequency key)) sine
    (Some (toGain (length (gainNodes c) + i)))
    (Some (timeline c (2 + (4 * i + reads c))))
    (Some (timeline c (3 + (4 * i + reads c)) + duration)).

(** The gain stage of the [i]-th key of a chord played on [c]. *)
Definition envelope (c : AudioContext) (duration : number) (i : nat) : GainNode :=
  mkGain [SetValueAtTime 0.3 (timeline c (4 * i + reads c));
          ExponentialRampToValueAtTime 0.01
            (timeline c (1 + (4 * i + reads c)) + duration)]
    (Some toDestination).

(** The oscillators created between two states of a context. *)
Definition tones_since (before after : AudioContext) : list OscillatorNode :=
  drop (length (oscillators before)) (oscillators after).

(** The gain nodes created between two states of a context. *)
Definition gains_since (before after : AudioContext) : list GainNode :=
  drop (length (gainNodes before)) (gainNodes after).

(** One call [playChord keys duration] on [m] starts a tone per key, all at
    [t], and stops each at [t + duration]. *)
Definition chord_unison_at (m : Machine) (keys : list string) (duration t : number) : Prop :=
  ∃ m' c c',
    AudioPlayer.playChord keys duration m = Normal tt m' ∧
    audioContext (self m) = Some c ∧
    audioContext (self m') = Some c' ∧
    length (tones_since c c') = length keys ∧
    Forall (fun o => startTime o = Some t ∧ stopTime o = Some (t + duration))
           (tones_since c c').

Definition chord_unison (m : Machine) (keys : list string) (duration : number) : Prop :=
  ∃ t, chord_unison_at m keys duration t.

(** The invariant of the class. *)
Definition initialized_iff_context (p : AudioPlayer) : Prop :=
  isInitialized p = true ↔ audioContext p ≠ None.

(** A timeline that moves on by one render quantum (128 frames at 44.1 kHz)
    after the fourth look at it. *)
Definition quantum_clock : nat → number :=
  fun k => if (k <? 4)%nat then 0 else 128 / 44100.

(** A timeline that stands at one second. *)
Definition steady_clock : nat → number := fun _ => 1.

Definition browser (clock : nat → number) : option Window :=
  Some (mkWindow (Some (mkConstructor suspended clock)) None).

(** An engine initialised in [browser clock]. *)
Definition initialized_in (clock : nat → number) : Machine :=
  final (AudioPlayer.initialize (boot (browser clock))).

(** The same engine once resumed, its context running: what the page has
    after the first click. *)
Definition resumed_in (clock : nat → number) : Machine :=
  final (AudioPlayer.resume (initialized_in clock)).

(** The context once resumed: running, and otherwise as it was. *)
Definition woken (c : AudioContext) : AudioContext :=
  mkContext (contextId c) running (timeline c) (reads c) (oscillators c)
    (gainNodes c).

(** A completion with [f] applied to the state it ends in. *)
Definition on_final {St A} (f : St → St) (r : Completion St A) : Completion St A :=
  match r with
  | Normal a s => Normal a (f s)
  | Throw e s => Throw e (f s)
  end.

(** The machine with the context of its player, if it has one, resumed. *)
Definition wake (m : Machine) : Machine :=
  match audioContext (self m) with
  | Some c => set_audioContext (woken c) m
  | None => m
  end.

(** The calls of [p] do not depend on the state of the context: on a
    context resumed they do what they do on the context as it is. *)
Definition ignores_state {A} (p : M AudioContext A) : Prop :=
  ∀ c, p (woken c) = on_final woken (p c).

(** The timeline never runs backwards. *)
Definition monotone (clock : nat → number) : Prop :=
  ∀ i j, (i ≤ j)%nat → (clock i <=? clock j) = true.

(** ** The scheduler *)

Record Note : Type := mkNote {
  keys : list string;
  duration : number
}.

(** [createNoteData()] *)
Definition createNoteData : list Note :=
  [ mkNote ["c/4"%string] 0.5; mkNote ["d/4"%string] 0.5;
    mkNote ["e/4"%string] 0.5; mkNote ["f/4"%string] 0.5 ].

(** The engine handed to the scheduler: the one [AudioPlayer] of the page,
    whose fields are the [self] of the machine. *)
Inductive Player : Type :=
| thePlayer.

(** What the closure of a timed action does, call by call: it invokes a
    callback of the client ([Effect] names those invocations) or it calls
    [audioPlayer.playChord]. *)
Inductive Call (Effect : Type) : Type :=
| Invoke (e : Effect)
| PlayChord (audioPlayer : Player) (keys : list string) (seconds : number).
Arguments Invoke {Effect} e.
Arguments PlayChord {Effect} audioPlayer keys seconds.

Abbreviation Action Effect := (list (Call Effect)).

(** [array.reduce((acc, x, index) => ..., init)] with the state threaded
    through the callback. *)
Fixpoint reduce_from {A B St} (f : B → A → nat → St → B * St) (l : list A)
    (index : nat) (acc : B) (s : St) : B * St :=
  match l with
  | [] => (acc, s)
  | x :: rest => let (acc', s') := f acc x index s in reduce_from f rest (S index) acc' s'
  end.

Definition reduce {A B St} (f : B → A → nat → St → B * St) (l : list A) (init : B)
    : St → B * St :=
  reduce_from f l 0 init.

Section Scheduler.

(** [BEAT_DURATION], seconds per beat, and [scheduleAction], the timer
    primitive, are defined outside the two source files: both are taken
    as parameters. *)
Variable BEAT_DURATION : number.
Context {Effect Timers : Type}.
Variable scheduleAction : Action Effect → number → Timers → Timers.

(** The closure armed for a note. *)
Definition note_action (note : Note) (index : nat) (audioPlayer : Player)
    (onNoteStart : nat → Effect) : Action Effect :=
  [ Invoke (onNoteStart index);
    PlayChord audioPlayer (keys note) (duration note * BEAT_DURATION) ].

Definition scheduleNotePlay (note : Note) (index : nat) (delay : number)
    (audioPlayer : Player) (onNoteStart : nat → Effect) (s : Timers)
    : number * Timers :=
  let s' := scheduleAction (note_action note index audioPlayer onNoteStart)
              (delay * 1000) s in
  (delay + duration note * BEAT_DURATION, s').

Definition playAllNotes (notes : list Note) (audioPlayer : Player)
    (onNoteStart : nat → Effect) (onComplete : Effect) (s : Timers) : Timers :=
  let (totalDelay, s') :=
    reduce (fun delay note index =>
              scheduleNotePlay note index delay audioPlayer onNoteStart)
           notes 0 s in
  scheduleAction [Invoke onComplete] (totalDelay * 1000) s'.

End Scheduler.

(** The accumulator of the fold of [playAllNotes] once it has gone
    through [notes] from [delay]: each step adds the rounded product
    [duration * BEAT_DURATION] and rounds the sum. *)
Definition end_of (BEAT_DURATION : number) (notes : list Note) (delay : number) : number :=
  fold_left (fun d note => d + duration note * BEAT_DURATION) notes delay.

(** The fold of [playAllNotes], unrolled: the calls of [scheduleAction] it
    makes for [notes] when it reaches them at position [index] with the
    accumulator at [delay]. *)
Fixpoint calls_from {Effect} (BEAT_DURATION : number) (audioPlayer : Player)
    (onNoteStart : nat → Effect) (notes : list Note) (index : nat) (delay : number)
    : list (Action Effect * number) :=
  match notes with
  | [] => []
  | note :: rest =>
      (note_action BEAT_DURATION note index audioPlayer onNoteStart, delay * 1000)
      :: calls_from BEAT_DURATION audioPlayer onNoteStart rest (S index)
           (delay + duration note * BEAT_DURATION)
  end.

(** The calls of [scheduleAction] made by a run, in order: the action and
    the delay in milliseconds of each. *)
Definition record_call {Effect} (a : Action Effect) (ms : number)
    (calls : list (Action Effect * number)) : list (Action Effect * number) :=
  calls ++ [(a, ms)].

Definition armed_by {Effect} (BEAT_DURATION : number) (notes : list Note)
    (audioPlayer : Player) (onNoteStart : nat → Effect) (onComplete : Effect)
    : list (Action Effect * number) :=
  playAllNotes BEAT_DURATION record_call notes audioPlayer onNoteStart onComplete [].

(** The offset of note [i], in seconds from the start of the run: what the
    accumulator of the fold holds when it reaches note [i]. *)
Definition offset (BEAT_DURATION : number) (notes : list Note) (i : nat) : number :=
  end_of BEAT_DURATION (take i notes) 0.

(** The offset of note [i] by the formula [(d0 + ... + d(i-1)) * B]: the
    durations before the note summed up, and the sum multiplied by the
    beat duration. *)
Definition prefix_sum_offset (BEAT_DURATION : number) (notes : list Note) (i : nat)
    : number :=
  fold_left (fun beats note => beats + duration note) (take i notes) 0
  * BEAT_DURATION.

(** Ten notes of one beat each. *)
Definition ten_beats : list Note := replicate 10 (mkNote ["c/4"%string] 1).

(** A number that is not negative, in the IEEE 754 view of a double: a
    zero of either sign, a positive number or the positive infinity. *)
Definition nonneg (s : spec_float) : Prop :=
  match s with
  | S754_zero _ | S754_infinity false | S754_finite false _ _ => True
  | _ => False
  end.

(** ** The host's timers *)

Module Host.

Record Timer (Effect : Type) : Type := mkTimer {
  due : number;
  action : Action Effect
}.
Arguments mkTimer {Effect} due action.
Arguments due {Effect} t.
Arguments action {Effect} t.

(** The event loop: its clock in milliseconds, the group of one-shot
    timers that are armed and have not fired, the client callbacks invoked
    so far (each with the time its timer was due) and the audio engine. *)
Record EventLoop (Effect : Type) : Type := mkLoop {
  now : number;
  pending : list (Timer Effect);
  fired : list (number * Effect);
  machine : Machine
}.
Arguments mkLoop {Effect} now pending fired machine.
Arguments now {Effect} e.
Arguments pending {Effect} e.
Arguments fired {Effect} e.
Arguments machine {Effect} e.

Definition idle {Effect} (m : Machine) : EventLoop Effect := mkLoop 0 [] [] m.

(** The delay a generic timer waits for: a delay that is negative, or not
    a number, counts as none; an infinite one never runs out. *)
Definition delay (ms : number) : number := if 0 <=? ms then ms else 0.

(** Modelled from the spec: [scheduleAction] is not among the source
    files.  It is to "arm a one-shot timed action" at a delay from now, on
    a generic software timer and "against a cancellable timer group": the
    action joins the pending ones, which [cancel] voids. *)
Definition scheduleAction {Effect} (a : Action Effect) (ms : number)
    (loop : EventLoop Effect) : EventLoop Effect :=
  mkLoop (now loop) (pending loop ++ [mkTimer (now loop + delay ms) a])
         (fired loop) (machine loop).

(** Modelled from the spec: cancellation is not among the source files.
    It is to "void all not-yet-fired actions atomically". *)
Definition cancel {Effect} (loop : EventLoop Effect) : EventLoop Effect :=
  mkLoop (now loop) [] (fired loop) (machine loop).

(** Modelled from the spec: [run], the caller of [playAllNotes], is not
    among the source files.  "Starting a new run must invalidate/clear all
    pending timed actions from a prior run before arming new ones"; the
    arming is [playAllNotes] of the source. *)
Definition run {Effect} (BEAT_DURATION : number) (notes : list Note)
    (audioPlayer : Player) (onNoteStart : nat → Effect) (onComplete : Effect)
    (loop : EventLoop Effect) : EventLoop Effect :=
  playAllNotes BEAT_DURATION scheduleAction notes audioPlayer onNoteStart
    onComplete (cancel loop).

(** The calls of an action's closure, made at time [at_] one after the
    other.  An exception ends the closure; the loop reports it and goes
    on. *)
Fixpoint run_calls {Effect} (at_ : number) (calls : Action Effect)
    (loop : EventLoop Effect) : EventLoop Effect :=
  match calls with
  | [] => loop
  | Invoke e :: rest =>
      run_calls at_ rest
        (mkLoop (now loop) (pending loop) (fired loop ++ [(at_, e)]) (machine loop))
  | PlayChord thePlayer keys seconds :: rest =>
      match AudioPlayer.playChord keys seconds (machine loop) with
      | Normal _ m => run_calls at_ rest (mkLoop (now loop) (pending loop) (fired loop) m)
      | Throw _ m => mkLoop (now loop) (pending loop) (fired loop) m
      end
  end.

Definition fire {Effect} (loop : EventLoop Effect) (t : Timer Effect)
    : EventLoop Effect :=
  run_calls (due t) (action t) loop.

(** Timers fire by due time, and in the order they were armed when due
    together. *)
Fixpoint enqueue {Effect} (t : Timer Effect) (queue : list (Timer Effect))
    : list (Timer Effect) :=
  match queue with
  | [] => [t]
  | x :: rest => if due x <=? due t then x :: enqueue t rest else t :: x :: rest
  end.

Definition by_due_time {Effect} (l : list (Timer Effect)) : list (Timer Effect) :=
  fold_left (fun queue t => enqueue t queue) l [].

(** Modelled from the spec: the host event loop is not among the source
    files.  Letting the clock reach [t] fires every armed timer due by
    then, one after the other, and keeps the others armed; the clock
    never runs backwards. *)
Definition advance {Effect} (t : number) (loop : EventLoop Effect) : EventLoop Effect :=
  let t' := if now loop <=? t then t else now loop in
  let ready := filter (fun x => Is_true (due x <=? t')) (pending loop) in
  let later := filter (fun x => ¬ Is_true (due x <=? t')) (pending loop) in
  let loop' :=
    fold_left fire (by_due_time ready)
              (mkLoop (now loop) later (fired loop) (machine loop)) in
  mkLoop t' (pending loop') (fired loop') (machine loop').

(** The clock reaching the times of [ts], one after the other. *)
Definition advances {Effect} (ts : list number) (loop : EventLoop Effect)
    : EventLoop Effect :=
  fold_left (fun loop t => advance t loop) ts loop.

End Host.


(** The callbacks of the runs of a session, told apart by run. *)
Inductive RunCallback : Type :=
| onNoteStartOf (run index : nat)
| onCompleteOf (run : nat).


(** A session of two runs on an idle loop: run 1 starts at time 0 and the
    clock reaches the times [ts1]; then run 2 starts and the clock reaches
    the times [ts2]. *)
Definition before_second_run (BEAT_DURATION : number) (notes1 : list Note)
    (ts1 : list number) (m : Machine) : Host.EventLoop RunCallback :=
  Host.advances ts1
    (Host.run BEAT_DURATION notes1 thePlayer (onNoteStartOf 1) (onCompleteOf 1)
       (Host.idle m)).

Definition two_runs (BEAT_DURATION : number) (notes1 notes2 : list Note)
    (ts1 ts2 : list number) (m : Machine) : Host.EventLoop RunCallback :=
  Host.advances ts2
    (Host.run BEAT_DURATION notes2 thePlayer (onNoteStartOf 2) (onCompleteOf 2)
       (before_second_run BEAT_DURATION notes1 ts1 m)).

(** The callbacks invoked after run 2 has started. *)
Definition fired_since_second_run (BEAT_DURATION : number) (notes1 notes2 : list Note)
    (ts1 ts2 : list number) (m : Machine) : list (number * RunCallback) :=
  drop (length (Host.fired (before_second_run BEAT_DURATION notes1 ts1 m)))
       (Host.fired (two_runs BEAT_DURATION notes1 notes2 ts1 ts2 m)).


(** ** The player as the article prints it *)

Module Article.

(** The library calls for one key, as the article's [playChord] makes
    them: the body of [playNote] inlined in the loop, with the clock
    looked at once ([const now = this.audioContext.currentTime]). *)
Definition playKey (key : string) (duration : number) : M Machine unit :=
  let* oscillator := onContext createOscillator in
  let* gainNode := onContext createGain in
  onContext (onOscillator oscillator (osc_connect (toGain gainNode))) ;;;
  onContext (onGain gainNode (gain_connect toDestination)) ;;;
  onContext (onOscillator oscillator
               (set_frequency (AudioPlayer.getFrequency key))) ;;;
  onContext (onOscillator oscillator (set_type sine)) ;;;
  let* now := onContext currentTime in
  onContext (onGain gainNode (automate (SetValueAtTime 0.3 now))) ;;;
  onContext (onGain gainNode
    (automate (ExponentialRampToValueAtTime 0.01 (now + duration)))) ;;;
  onContext (onOscillator oscillator (start now)) ;;;
  onContext (onOscillator oscillator (stop (now + duration))).

(** [playChord] of the class as the article gives it. *)
Definition playChord (keys : list string) (duration : number) : M Machine unit :=
  let* ctx := gets (fun m => audioContext (self m)) in
  match ctx with
  | None => ret tt
  | Some _ => forEach (fun key => playKey key duration) keys
  end.

(** The same calls as a program on the context alone. *)
Definition playKey_in (key : string) (duration : number) : M AudioContext unit :=
  let* oscillator := createOscillator in
  let* gainNode := createGain in
  onOscillator oscillator (osc_connect (toGain gainNode)) ;;;
  onGain gainNode (gain_connect toDestination) ;;;
  onOscillator oscillator (set_frequency (AudioPlayer.getFrequency key)) ;;;
  onOscillator oscillator (set_type sine) ;;;
  let* now := currentTime in
  onGain gainNode (automate (SetValueAtTime 0.3 now)) ;;;
  onGain gainNode (automate (ExponentialRampToValueAtTime 0.01 (now + duration))) ;;;
  onOscillator oscillator (start now) ;;;
  onOscillator oscillator (stop (now + duration)).

(** The first call for one key that the library refuses: the checks of
    the calls in the order the loop makes them, all on the one time
    looked up. *)
Definition playKey_refused (key : string) (duration : number) (c : AudioContext)
    : option JS.Error :=
  let now := timeline c (reads c) in
  JS.and_then (JS.to_float (JS.ToNumber (AudioPlayer.getFrequency key)))
  (JS.and_then (refused (SetValueAtTime 0.3 now))
  (JS.and_then (refused (ExponentialRampToValueAtTime 0.01 (now + duration)))
  (JS.and_then (JS.to_double now)
  (JS.and_then (time now)
  (JS.and_then (JS.to_double (now + duration)) (time (now + duration))))))).

(** What one round of the loop that returns leaves in the context. *)
Definition key_on (key : string) (duration : number) (c : AudioContext)
    : AudioContext :=
  mkContext (contextId c) (state c) (timeline c) (1 + reads c)
    (oscillators c ++
       [mkOscillator (JS.ToNumber (AudioPlayer.getFrequency key)) sine
          (Some (toGain (length (gainNodes c))))
          (Some (timeline c (reads c)))
          (Some (timeline c (reads c) + duration))])
    (gainNodes c ++
       [mkGain [SetValueAtTime 0.3 (timeline c (reads c));
                ExponentialRampToValueAtTime 0.01
                  (timeline c (reads c) + duration)]
          (Some toDestination)]).

Definition playChord_on (keys : list string) (duration : number)
    (c : AudioContext) : AudioContext :=
  fold_left (fun c key => key_on key duration c) keys c.

Definition tone (c : AudioContext) (duration : number) (i : nat) (key : string)
    : OscillatorNode :=
  mkOscillator (JS.ToNumber (AudioPlayer.getFrequency key)) sine
    (Some (toGain (length (gainNodes c) + i)))
    (Some (timeline c (i + reads c)))
    (Some (timeline c (i + reads c) + duration)).

Definition envelope (c : AudioContext) (duration : number) (i : nat) : GainNode :=
  mkGain [SetValueAtTime 0.3 (timeline c (i + reads c));
          ExponentialRampToValueAtTime 0.01
            (timeline c (i + reads c) + duration)]
    (Some toDestination).

End Article.

(** The chords of a score played one after the other on the engine, each
    call run to its completion. *)
Definition play_score (BEAT_DURATION : number) (notes : list Note) (m : Machine)
    : Machine :=
  fold_left (fun m note =>
               final (AudioPlayer.playChord (keys note)
                        (duration note * BEAT_DURATION) m))
            notes m.

(** * Properties *)

(** ** Doubles: what rounding keeps of the order

    The operations on doubles are specified by [SpecFloat]: the exact
    result is computed on the mantissas and rounded by
    [binary_round_aux].  The lemmas of this part follow a mantissa through
    that rounding. *)

Module Binary64.

Local Open Scope Z_scope.

Abbreviation fexp := (SpecFloat.fexp prec emax).

Lemma fexp_eq e : fexp e = Z.max (e - 53) (-1074).
Proof. reflexivity. Qed.

Lemma digits2_pos_bounds p :
  2 ^ (Zpos (digits2_pos p) - 1) <= Zpos p < 2 ^ Zpos (digits2_pos p).
Proof.
  induction p as [p IH | p IH |]; cbn [digits2_pos].
  - rewrite Pos2Z.inj_succ.
    replace (Z.succ (Zpos (digits2_pos p)) - 1) with (Z.succ (Zpos (digits2_pos p) - 1)) by lia.
    rewrite !Z.pow_succ_r by lia. lia.
  - rewrite Pos2Z.inj_succ.
    replace (Z.succ (Zpos (digits2_pos p)) - 1) with (Z.succ (Zpos (digits2_pos p) - 1)) by lia.
    rewrite !Z.pow_succ_r by lia. lia.
  - cbn. lia.
Qed.

Lemma pow2_xI p : 2 ^ Z.pos p~1 = 2 * (2 ^ Z.pos p * 2 ^ Z.pos p).
Proof.
  replace (Z.pos p~1) with (1 + Z.pos p + Z.pos p) by lia.
  rewrite !Z.pow_add_r by lia. lia.
Qed.

Lemma pow2_xO p : 2 ^ Z.pos p~0 = 2 ^ Z.pos p * 2 ^ Z.pos p.
Proof.
  replace (Z.pos p~0) with (Z.pos p + Z.pos p) by lia.
  rewrite !Z.pow_add_r by lia. lia.
Qed.

Lemma shr_1_m r : 0 <= shr_m r -> shr_m (shr_1 r) = shr_m r / 2.
Proof.
  destruct r as [m r s]. cbn [shr_m]. intros Hm.
  rewrite <- Z.div2_div.
  destruct m as [| [p | p |] | p]; try reflexivity. lia.
Qed.

Lemma iter_pos_shr p : forall r,
  0 <= shr_m r ->
  shr_m (SpecFloat.iter_pos shr_1 p r) = shr_m r / 2 ^ Zpos p.
Proof.
  induction p as [p IH | p IH |]; intros r Hr; cbn [SpecFloat.iter_pos].
  - assert (0 <= shr_m (shr_1 r)) as H1
      by (rewrite shr_1_m by lia; apply Z.div_pos; lia).
    assert (0 <= shr_m (SpecFloat.iter_pos shr_1 p (shr_1 r))) as H2
      by (rewrite IH by lia; apply Z.div_pos; lia).
    rewrite IH, IH, shr_1_m by lia.
    rewrite !Z.div_div by lia. f_equal. symmetry. apply pow2_xI.
  - assert (0 <= shr_m (SpecFloat.iter_pos shr_1 p r)) as H2
      by (rewrite IH by lia; apply Z.div_pos; lia).
    rewrite IH, IH by lia.
    rewrite !Z.div_div by lia. f_equal. symmetry. apply pow2_xO.
  - rewrite shr_1_m by lia. reflexivity.
Qed.

Lemma shr_m_of_loc m l : shr_m (shr_record_of_loc m l) = m.
Proof. destruct l as [| []]; reflexivity. Qed.

(** shr_fexp truncates the mantissa to the exponent of its format. *)
Lemma shr_fexp_spec m e l :
  0 <= m ->
  let k := Z.max 0 (fexp (Zdigits2 m + e) - e) in
  shr_m (fst (shr_fexp prec emax m e l)) = m / 2 ^ k /\
  snd (shr_fexp prec emax m e l) = e + k.
Proof.
  intros Hm k. unfold shr_fexp, shr. subst k.
  destruct (fexp (Zdigits2 m + e) - e) as [| p | p] eqn:Hn; cbn [fst snd].
  - rewrite shr_m_of_loc. change (Z.max 0 0) with 0. rewrite Z.div_1_r. lia.
  - rewrite iter_pos_shr by (rewrite shr_m_of_loc; lia).
    rewrite shr_m_of_loc. rewrite Z.max_r by lia. lia.
  - rewrite shr_m_of_loc. rewrite Z.max_l by lia. rewrite Z.div_1_r. lia.
Qed.

Lemma round_nearest_even_bounds m l :
  m <= round_nearest_even m l <= m + 1.
Proof.
  unfold round_nearest_even. destruct l as [| []]; try lia.
  destruct (Z.even m); lia.
Qed.


(** Values that are zero, positive or plus infinity. *)
Lemma nonneg_leb_zero s : SFleb (S754_zero false) s = true <-> nonneg s.
Proof. destruct s as [[] | [] | | [] m e]; cbn; intuition discriminate. Qed.

Lemma Zdigits2_bounds m :
  0 < m -> 2 ^ (Zdigits2 m - 1) <= m < 2 ^ Zdigits2 m.
Proof.
  destruct m as [| p | p]; try lia. intros _. apply digits2_pos_bounds.
Qed.

(** Rounding a value that is not negative gives one that is not negative. *)
Lemma binary_round_aux_nonneg m e l :
  0 <= m -> nonneg (binary_round_aux prec emax false m e l).
Proof.
  intros Hm. unfold binary_round_aux.
  pose proof (shr_fexp_spec m e l Hm) as [H1 _].
  destruct (shr_fexp prec emax m e l) as [mrs' e']. cbn [fst snd] in H1.
  pose proof (round_nearest_even_bounds (shr_m mrs') (loc_of_shr_record mrs')) as Hr.
  assert (0 <= shr_m mrs') as Hp by (rewrite H1; apply Z.div_pos; lia).
  set (m2 := round_nearest_even (shr_m mrs') (loc_of_shr_record mrs')) in *.
  pose proof (shr_fexp_spec m2 e' loc_Exact ltac:(lia)) as [H2 _].
  destruct (shr_fexp prec emax m2 e' loc_Exact) as [mrs'' e'']. cbn [fst snd] in H2.
  assert (0 <= shr_m mrs'') as Hp2 by (rewrite H2; apply Z.div_pos; lia).
  destruct (shr_m mrs'') as [| p | p]; [exact I | | lia].
  destruct (e'' <=? emax - prec); exact I.
Qed.

Lemma bounded_facts mx ex :
  bounded prec emax mx ex = true ->
  -1074 <= ex <= 971 /\ Zpos mx < 2 ^ 53 /\ (-1074 < ex -> 2 ^ 52 <= Zpos mx).
Proof.
  unfold bounded, canonical_mantissa. rewrite andb_true_iff, Z.eqb_eq, Z.leb_le.
  rewrite fexp_eq. change (emax - prec) with 971. intros [Hc He].
  pose proof (digits2_pos_bounds mx) as [Hlo Hhi].
  assert (Zpos (digits2_pos mx) <= 53) as Hd by lia.
  split; [lia |]. split.
  - eapply Z.lt_le_trans; [exact Hhi |]. apply Z.pow_le_mono_r; lia.
  - intros Hex. assert (Zpos (digits2_pos mx) = 53) as Heq by lia.
    rewrite Heq in Hlo. exact Hlo.
Qed.

(** Truncating to the exponent of the format does not go below a number of
    the format that the value is not below. *)
Lemma trunc_ge mx ex m e :
  -1074 <= ex -> Zpos mx < 2 ^ 53 -> (-1074 < ex -> 2 ^ 52 <= Zpos mx) ->
  0 < m -> -1074 <= e ->
  Zpos mx * 2 ^ (ex + 1074) <= m * 2 ^ (e + 1074) ->
  let k := Z.max 0 (fexp (Zdigits2 m + e) - e) in
  Zpos mx * 2 ^ (ex + 1074) <= (m / 2 ^ k) * 2 ^ (e + k + 1074).
Proof.
  intros Hex Hmx Hnorm Hm He Hle k. subst k.
  pose proof (Zdigits2_bounds m Hm) as [Hlo Hhi].
  set (d := Zdigits2 m) in *.
  assert (0 < d) as Hd.
  { destruct (Z.le_gt_cases d 0) as [H | H]; [| exact H].
    assert (2 ^ d <= 2 ^ 0) by (apply Z.pow_le_mono_r; lia). lia. }
  rewrite fexp_eq.
  destruct (Z.le_gt_cases (Z.max (d + e - 53) (-1074) - e) 0) as [Hk | Hk].
  { rewrite Z.max_l by lia. rewrite Z.div_1_r, Z.add_0_r. exact Hle. }
  rewrite Z.max_r by lia.
  set (k := Z.max (d + e - 53) (-1074) - e) in *.
  assert (0 < 2 ^ k) as Hpk by (apply Z.pow_pos_nonneg; lia).
  assert (0 < 2 ^ (e + 1074)) as Hpe by (apply Z.pow_pos_nonneg; lia).
  assert (2 ^ (e + k + 1074) = 2 ^ k * 2 ^ (e + 1074)) as Hsplit
    by (rewrite <- Z.pow_add_r by lia; f_equal; lia).
  destruct (Z.le_gt_cases (e + k) ex) as [Het | Het].
  - (* the target exponent is at most that of x *)
    assert (2 ^ (ex + 1074) = 2 ^ (ex - (e + k)) * 2 ^ k * 2 ^ (e + 1074)) as Hx
      by (rewrite <- !Z.pow_add_r by lia; f_equal; lia).
    assert (0 < 2 ^ (ex - (e + k))) as Hpa by (apply Z.pow_pos_nonneg; lia).
    set (a := Zpos mx * 2 ^ (ex - (e + k))).
    assert (a * 2 ^ k <= m) as Ha.
    { apply (Z.mul_le_mono_pos_r _ _ (2 ^ (e + 1074))); [lia |].
      subst a. rewrite Hx in Hle. lia. }
    assert (a <= m / 2 ^ k) as Hdiv
      by (apply Z.div_le_lower_bound; lia).
    rewrite Hx, Hsplit.
    replace (Zpos mx * (2 ^ (ex - (e + k)) * 2 ^ k * 2 ^ (e + 1074)))
      with (a * (2 ^ k * 2 ^ (e + 1074))) by (subst a; lia).
    apply Z.mul_le_mono_nonneg_r; lia.
  - (* the target exponent is above that of x *)
    assert (k = d - 53) as Hkd by lia.
    assert (2 ^ (d - 1) = 2 ^ 52 * 2 ^ k) as Hd1
      by (rewrite <- Z.pow_add_r by lia; f_equal; lia).
    assert (2 ^ 52 <= m / 2 ^ k) as Hdiv
      by (apply Z.div_le_lower_bound; lia).
    assert (2 ^ (e + k + 1074) = 2 ^ (e + k - ex - 1) * (2 * 2 ^ (ex + 1074))) as Hy.
    { replace (2 * 2 ^ (ex + 1074)) with (2 ^ (ex + 1074 + 1))
        by (rewrite Z.pow_add_r by lia; lia).
      rewrite <- Z.pow_add_r by lia. f_equal. lia. }
    assert (0 < 2 ^ (e + k - ex - 1)) as Hpb by (apply Z.pow_pos_nonneg; lia).
    assert (0 < 2 ^ (ex + 1074)) as Hpx by (apply Z.pow_pos_nonneg; lia).
    rewrite Hy.
    change (2 ^ 53) with (2 * 2 ^ 52) in Hmx.
    nia.
Qed.


(** Rounding a value that a number of the format is not above gives a
    number that it is not above. *)
Lemma binary_round_aux_ge mx ex m e l :
  bounded prec emax mx ex = true ->
  0 < m -> -1074 <= e ->
  Zpos mx * 2 ^ (ex + 1074) <= m * 2 ^ (e + 1074) ->
  SFleb (S754_finite false mx ex) (binary_round_aux prec emax false m e l) = true.
Proof.
  intros Hb Hm He Hle.
  destruct (bounded_facts mx ex Hb) as (Hex & Hmx & Hnorm).
  unfold binary_round_aux.
  pose proof (shr_fexp_spec m e l ltac:(lia)) as [H1 E1].
  pose proof (trunc_ge mx ex m e ltac:(lia) Hmx Hnorm Hm He Hle) as T1.
  cbv zeta in H1, E1, T1.
  set (k1 := Z.max 0 (fexp (Zdigits2 m + e) - e)) in *.
  destruct (shr_fexp prec emax m e l) as [mrs' e']. cbn [fst snd] in H1, E1.
  pose proof (round_nearest_even_bounds (shr_m mrs') (loc_of_shr_record mrs')) as Hr.
  set (m2 := round_nearest_even (shr_m mrs') (loc_of_shr_record mrs')) in *.
  assert (0 <= k1) as Hk1 by (subst k1; lia).
  assert (0 < 2 ^ (e' + 1074)) as Hpe' by (apply Z.pow_pos_nonneg; lia).
  assert (0 < 2 ^ (ex + 1074)) as Hpx by (apply Z.pow_pos_nonneg; lia).
  assert (Zpos mx * 2 ^ (ex + 1074) <= m2 * 2 ^ (e' + 1074)) as Hle2.
  { etransitivity; [exact T1 |]. rewrite <- H1. subst e'.
    apply Z.mul_le_mono_nonneg_r; lia. }
  assert (0 < m2) as Hm2.
  { destruct (Z.le_gt_cases m2 0) as [H | H]; [| exact H].
    assert (m2 * 2 ^ (e' + 1074) <= 0) by nia. nia. }
  pose proof (shr_fexp_spec m2 e' loc_Exact ltac:(lia)) as [H2 E2].
  pose proof (trunc_ge mx ex m2 e' ltac:(lia) Hmx Hnorm Hm2 ltac:(lia) Hle2) as T2.
  cbv zeta in H2, E2, T2.
  pose proof (Zdigits2_bounds m2 Hm2) as [Hlo Hhi].
  set (d2 := Zdigits2 m2) in *.
  destruct (shr_fexp prec emax m2 e' loc_Exact) as [mrs'' e''].
  cbn [fst snd] in H2, E2.
  rewrite fexp_eq in *.
  set (k2 := Z.max 0 (Z.max (d2 + e' - 53) (-1074) - e')) in *.
  assert (0 <= k2) as Hk2 by (subst k2; lia).
  assert (0 < 2 ^ k2) as Hpk2 by (apply Z.pow_pos_nonneg; lia).
  rewrite <- H2, <- E2 in T2.
  assert (shr_m mrs'' < 2 ^ 53) as Hbound.
  { rewrite H2. apply Z.div_lt_upper_bound; [lia |].
    eapply Z.lt_le_trans; [exact Hhi |].
    rewrite <- Z.pow_add_r by lia. apply Z.pow_le_mono_r; lia. }
  assert (-1074 <= e'') as He'' by lia.
  assert (0 < 2 ^ (e'' + 1074)) as Hpe'' by (apply Z.pow_pos_nonneg; lia).
  assert (0 < Zpos mx * 2 ^ (ex + 1074)) as Hposx by (apply Z.mul_pos_pos; lia).
  assert (0 < shr_m mrs'') as Hpos3.
  { destruct (Z.le_gt_cases (shr_m mrs'') 0) as [H | H]; [| exact H].
    assert (shr_m mrs'' * 2 ^ (e'' + 1074) <= 0)
      by (apply Z.mul_nonpos_nonneg; lia).
    lia. }
  destruct (shr_m mrs'') as [| p | p] eqn:Hm3;
    [lia | | pose proof (Pos2Z.neg_is_neg p); lia].
  destruct (e'' <=? emax - prec); [| reflexivity].
  unfold SFleb, SFcompare.
  destruct (Z.compare_spec ex e'') as [Heq | Hlt | Hgt]; [| reflexivity |].
  - rewrite <- Heq in T2. fold (Pos.compare mx p).
    destruct (Pos.compare_spec mx p) as [| |Hgt]; try reflexivity.
    exfalso. apply Z.mul_le_mono_pos_r in T2; lia.
  - exfalso.
    assert (2 ^ (ex + 1074) = 2 ^ (ex - e'' - 1) * (2 * 2 ^ (e'' + 1074))) as Hy.
    { replace (2 * 2 ^ (e'' + 1074)) with (2 ^ (e'' + 1074 + 1))
        by (rewrite Z.pow_add_r by lia; lia).
      rewrite <- Z.pow_add_r by lia. f_equal. lia. }
    assert (0 < 2 ^ (ex - e'' - 1)) as Hpb by (apply Z.pow_pos_nonneg; lia).
    assert (2 ^ 52 <= Zpos mx) as Hn by (apply Hnorm; lia).
    rewrite Hy in T2. change (2 ^ 53) with (2 * 2 ^ 52) in Hbound.
    set (P := 2 ^ (e'' + 1074)) in *. set (A := 2 ^ (ex - e'' - 1)) in *.
    set (Q := 2 ^ 52) in *.
    assert (Zpos p * P < 2 * Q * P) as S1 by (apply Z.mul_lt_mono_pos_r; lia).
    assert (2 * Q * P <= Zpos mx * (2 * P)) as S2.
    { replace (2 * Q * P) with (Q * (2 * P)) by lia.
      apply Z.mul_le_mono_nonneg_r; lia. }
    assert (Zpos mx * (2 * P) * 1 <= Zpos mx * (2 * P) * A) as S3
      by (apply Z.mul_le_mono_nonneg_l; lia).
    lia.
Qed.


Lemma iter_xO m d : Zpos (Pos.iter xO m d) = Zpos m * 2 ^ Zpos d.
Proof.
  induction d as [| d IH] using Pos.peano_ind.
  - cbn. lia.
  - rewrite Pos.iter_succ, Pos2Z.inj_xO, IH, Pos2Z.inj_succ, Z.pow_succ_r by lia.
    lia.
Qed.

Lemma shl_align_spec m e e' :
  snd (shl_align m e e') = Z.min e e' /\
  Zpos (fst (shl_align m e e')) = Zpos m * 2 ^ (e - Z.min e e').
Proof.
  unfold shl_align. destruct (e' - e) as [| d | d] eqn:Hd; cbn [fst snd].
  - rewrite Z.min_l by lia. rewrite Z.sub_diag. lia.
  - rewrite Z.min_l by lia. rewrite Z.sub_diag. lia.
  - rewrite Z.min_r by lia. split; [reflexivity |].
    rewrite iter_xO. f_equal. f_equal. lia.
Qed.

Lemma SFleb_refl_finite m e :
  SFleb (S754_finite false m e) (S754_finite false m e) = true.
Proof.
  unfold SFleb, SFcompare. rewrite Z.compare_refl.
  fold (Pos.compare m m). rewrite Pos.compare_refl. reflexivity.
Qed.

(** Adding a number that is not negative does not give less. *)
Lemma SFadd_ge x y :
  valid_binary x = true -> valid_binary y = true ->
  nonneg x -> nonneg y ->
  SFleb x (SF64add x y) = true /\ nonneg (SF64add x y).
Proof.
  intros Vx Vy Nx Ny.
  destruct x as [sx | [] | | [] mx ex]; try contradiction;
  destruct y as [sy | [] | | [] my ey]; try contradiction;
    try (split; [reflexivity | exact I]).
  - destruct sx, sy; split; try reflexivity; exact I.
  - split; [apply SFleb_refl_finite | exact I].
  - (* two positive numbers *)
    cbn in Vx, Vy.
    destruct (bounded_facts mx ex Vx) as (Hex & Hmx & Hnx).
    destruct (bounded_facts my ey Vy) as (Hey & Hmy & Hny).
    unfold SF64add, SFadd.
    destruct (shl_align_spec mx ex (Z.min ex ey)) as [_ Hax].
    destruct (shl_align_spec my ey (Z.min ex ey)) as [_ Hay].
    replace (Z.min ex (Z.min ex ey)) with (Z.min ex ey) in Hax by lia.
    replace (Z.min ey (Z.min ex ey)) with (Z.min ex ey) in Hay by lia.
    set (E := Z.min ex ey) in *.
    set (a := fst (shl_align mx ex E)) in *.
    set (b := fst (shl_align my ey E)) in *.
    cbn [cond_Zopp]. change (Z.pos a + Z.pos b) with (Z.pos (a + b)).
    cbn [binary_normalize]. unfold binary_round.
    set (M := (a + b)%positive).
    destruct (shl_align_spec M E (fexp (Zpos (digits2_pos M) + E))) as [Hez Hmz].
    destruct (shl_align M E (fexp (Zpos (digits2_pos M) + E))) as [mz ez].
    cbn [fst snd] in Hez, Hmz.
    assert (-1074 <= ez) as Hlow by (rewrite Hez, fexp_eq; lia).
    assert (ez <= E) as Hup by lia.
    assert (Zpos mx * 2 ^ (ex + 1074) <= Zpos mz * 2 ^ (ez + 1074)) as Hle.
    { rewrite Hmz, <- Hez.
      replace (Zpos M) with (Zpos a + Zpos b) by (subst M; lia).
      rewrite Hax.
      assert (2 ^ (ex + 1074) = 2 ^ (ex - E) * 2 ^ (E - ez) * 2 ^ (ez + 1074)) as ->
        by (rewrite <- !Z.pow_add_r by lia; f_equal; lia).
      assert (0 < 2 ^ (E - ez)) by (apply Z.pow_pos_nonneg; lia).
      assert (0 < 2 ^ (ez + 1074)) by (apply Z.pow_pos_nonneg; lia).
      assert (0 <= Zpos b * 2 ^ (E - ez) * 2 ^ (ez + 1074))
        by (apply Z.mul_nonneg_nonneg; lia).
      lia. }
    split.
    + apply binary_round_aux_ge; [exact Vx | lia | exact Hlow | exact Hle].
    + apply binary_round_aux_nonneg. lia.
Qed.


Lemma SFleb_trans s1 s2 s3 :
  nonneg s1 -> nonneg s2 -> nonneg s3 ->
  SFleb s1 s2 = true -> SFleb s2 s3 = true -> SFleb s1 s3 = true.
Proof.
  intros N1 N2 N3.
  destruct s1 as [b1 | [] | | [] m1 e1]; try contradiction;
  destruct s2 as [b2 | [] | | [] m2 e2]; try contradiction;
  destruct s3 as [b3 | [] | | [] m3 e3]; try contradiction;
    try reflexivity; try discriminate; try (intros _; discriminate).
  unfold SFleb, SFcompare.
  fold (Pos.compare m1 m2). fold (Pos.compare m2 m3). fold (Pos.compare m1 m3).
  destruct (Z.compare_spec e1 e2) as [E12 | E12 | E12]; try discriminate;
  destruct (Z.compare_spec e2 e3) as [E23 | E23 | E23]; try discriminate;
  destruct (Z.compare_spec e1 e3) as [E13 | E13 | E13]; try lia;
    try reflexivity.
  destruct (Pos.compare_spec m1 m2) as [M12 | M12 | M12]; try discriminate;
  destruct (Pos.compare_spec m2 m3) as [M23 | M23 | M23]; try discriminate;
  destruct (Pos.compare_spec m1 m3) as [M13 | M13 | M13]; try lia;
    reflexivity.
Qed.

Lemma Prim2SF_zero : Prim2SF 0 = S754_zero false.
Proof. reflexivity. Qed.

Lemma Prim2SF_infinity : Prim2SF infinity = S754_infinity false.
Proof. reflexivity. Qed.

Lemma leb_zero x : (0 <=? x)%float = true <-> nonneg (Prim2SF x).
Proof. rewrite leb_spec, Prim2SF_zero. apply nonneg_leb_zero. Qed.

(** Adding a double that is not negative to one that is not negative
    gives no less, even after rounding. *)
Lemma add_ge x y :
  (0 <=? x)%float = true -> (0 <=? y)%float = true ->
  (x <=? x + y)%float = true /\ (0 <=? x + y)%float = true.
Proof.
  rewrite !leb_zero, leb_spec, add_spec. intros Nx Ny.
  apply SFadd_ge; [apply Prim2SF_valid | apply Prim2SF_valid | exact Nx | exact Ny].
Qed.

(** The rounded product of a double that is not negative and a positive
    finite one is not negative. *)
Lemma mul_nonneg d b :
  (0 <=? d)%float = true -> (0 <? b)%float = true -> (b <? infinity)%float = true ->
  (0 <=? d * b)%float = true.
Proof.
  rewrite !leb_zero, !ltb_spec, mul_spec, Prim2SF_zero, Prim2SF_infinity.
  intros Nd Hpos Hfin.
  destruct (Prim2SF b) as [sb | [] | | [] mb eb]; try discriminate.
  destruct (Prim2SF d) as [sd | [] | | [] md ed]; try contradiction.
  - destruct sd; exact I.
  - exact I.
  - apply binary_round_aux_nonneg. lia.
Qed.

Lemma leb_trans x y z :
  (0 <=? x)%float = true -> (0 <=? y)%float = true -> (0 <=? z)%float = true ->
  (x <=? y)%float = true -> (y <=? z)%float = true -> (x <=? z)%float = true.
Proof. rewrite !leb_zero, !leb_spec. apply SFleb_trans. Qed.

Lemma leb_refl x : (0 <=? x)%float = true -> (x <=? x)%float = true.
Proof.
  rewrite leb_zero, leb_spec.
  destruct (Prim2SF x) as [s | [] | | [] m e]; try contradiction; try reflexivity.
  intros _. apply SFleb_refl_finite.
Qed.

End Binary64.

(** ** The pitch table *)

Section PitchTable.

Import JS AudioPlayer.

(** Every entry of the table is truthy and a frequency the library takes. *)
Lemma noteMap_entry note f :
  noteMap !! note = Some f → truthy (Number f) = true ∧ to_float f = None.
Proof.
  intros H. apply elem_of_list_to_map_2 in H.
  repeat (apply elem_of_cons in H as [H | H];
          [injection H as _ ->; split; reflexivity |]).
  by apply elem_of_nil in H.
Qed.

(** A name of the table resolves to its entry. *)
Lemma getFrequency_hit note f :
  noteMap !! note = Some f → getFrequency note = Number f.
Proof.
  intros H. unfold getFrequency, get, or. rewrite H.
  by rewrite (proj1 (noteMap_entry _ _ H)).
Qed.

(** A name that is neither in the table nor inherited resolves to 440. *)
Lemma getFrequency_miss note :
  noteMap !! note = None → note ∉ Object_prototype →
  getFrequency note = Number 440.
Proof.
  intros H Hp. unfold getFrequency, get, or. rewrite H.
  by rewrite bool_decide_eq_false_2.
Qed.

(** An inherited name resolves to the inherited object. *)
Lemma getFrequency_inherited note :
  noteMap !! note = None → note ∈ Object_prototype →
  getFrequency note = Object note.
Proof.
  intros H Hp. unfold getFrequency, get, or. rewrite H.
  by rewrite bool_decide_eq_true_2.
Qed.

(** No inherited name is a name of the table. *)
Lemma inherited_not_in_table note :
  note ∈ Object_prototype → noteMap !! note = None.
Proof.
  intros Hp. unfold Object_prototype in Hp.
  repeat (apply elem_of_cons in Hp as [-> | Hp]; [by vm_compute |]).
  by apply elem_of_nil in Hp.
Qed.

(** The library takes the frequency of a key exactly when the key is not
    an inherited name. *)
Lemma getFrequency_playable note :
  to_float (ToNumber (getFrequency note)) = None ↔ note ∉ Object_prototype.
Proof.
  destruct (decide (note ∈ Object_prototype)) as [Hp | Hp].
  - rewrite getFrequency_inherited by auto using inherited_not_in_table.
    split; [discriminate | done].
  - split; [done | intros _].
    destruct (noteMap !! note) as [f |] eqn:Hn.
    + rewrite (getFrequency_hit _ _ Hn). apply (noteMap_entry _ _ Hn).
    + by rewrite getFrequency_miss.
Qed.

End PitchTable.

(** C7, at the name ["constructor"]: it is not in the pitch table, and the
    lookup returns the inherited constructor, not 440. *)
Theorem getFrequency_constructor :
  AudioPlayer.noteMap !! "constructor"%string = None ∧
  AudioPlayer.getFrequency "constructor" = JS.Object "constructor" ∧
  AudioPlayer.getFrequency "constructor" ≠ JS.Number 440.
Proof. split; [| split]; [by vm_compute | by vm_compute | by vm_compute]. Qed.

(** ** Methods and the calls they make on the context *)

Section Lifting.

Lemma set_audioContext_id m c :
  audioContext (self m) = Some c → set_audioContext c m = m.
Proof. destruct m as [r [ctx b]]. simpl. by intros ->. Qed.

Lemma final_lift {A} m (r : Completion AudioContext A) :
  final (lift m r) = set_audioContext (final r) m.
Proof. by destruct r. Qed.

Lemma lift_set {A} m c (r : Completion AudioContext A) :
  lift (set_audioContext c m) r = lift m r.
Proof. by destruct r. Qed.

Lemma lifts_onContext {A} (op : M AudioContext A) : lifts (onContext op) op.
Proof. intros m c Hc. unfold onContext. by rewrite Hc. Qed.

Lemma lifts_bind {A B} (p : M Machine A) q (k : A → M Machine B) k' :
  lifts p q → (∀ a, lifts (k a) (k' a)) → lifts (bind p k) (bind q k').
Proof.
  intros Hp Hk m c Hc. unfold bind. rewrite (Hp m c Hc).
  destruct (q c) as [a c' | e c']; [| done].
  cbn [lift]. rewrite (Hk a (set_audioContext c' m) c' eq_refl). apply lift_set.
Qed.

Lemma lifts_forEach {X} (f : X → M Machine unit) g l :
  (∀ x, lifts (f x) (g x)) → lifts (forEach f l) (forEach g l).
Proof.
  intros Hf. induction l as [| x l IH].
  - intros m c Hc. cbn. unfold ret. by rewrite set_audioContext_id.
  - cbn [forEach]. apply lifts_bind; [apply Hf | intros _; apply IH].
Qed.

(** A method that does nothing on a player without a context. *)
Lemma guarded (body : M Machine unit) m :
  (let* ctx := gets (fun m => audioContext (self m)) in
   match ctx with
   | None => ret tt
   | Some _ => body
   end) m =
  match audioContext (self m) with
  | None => Normal tt m
  | Some _ => body m
  end.
Proof. unfold bind, gets. by destruct (audioContext (self m)). Qed.

Lemma playNote_lifts frequency seconds :
  lifts (AudioPlayer.playNote frequency seconds) (playNote_in frequency seconds).
Proof.
  intros m c Hc. unfold AudioPlayer.playNote. rewrite guarded, Hc.
  revert m c Hc.
  refine (_ : lifts _ (playNote_in frequency seconds)).
  unfold playNote_in.
  repeat (apply lifts_bind; [apply lifts_onContext | intros ?]).
  apply lifts_onContext.
Qed.

(** [playChord] on an initialised engine makes the calls of
    [playChord_in] on its context. *)
Lemma playChord_lifts keys seconds :
  lifts (AudioPlayer.playChord keys seconds) (playChord_in keys seconds).
Proof.
  intros m c Hc. unfold AudioPlayer.playChord. rewrite guarded, Hc.
  apply lifts_forEach; [| done]. intros key. apply playNote_lifts.
Qed.

(** [playChord] on an engine without a context. *)
Lemma playChord_uninitialized m keys seconds :
  audioContext (self m) = None →
  AudioPlayer.playChord keys seconds m = Normal tt m.
Proof. intros Hc. unfold AudioPlayer.playChord. by rewrite guarded, Hc. Qed.

End Lifting.

(** ** One note on the context *)

Section OneNote.

Lemma lookup_snoc {A} (l : list A) x : (l ++ [x]) !! length l = Some x.
Proof. by apply list_lookup_middle. Qed.

Lemma insert_snoc {A} (l : list A) x y : <[length l := y]> (l ++ [x]) = l ++ [y].
Proof. rewrite insert_app_r_alt by lia. by rewrite Nat.sub_diag. Qed.

Lemma working_onOscillator c k o g f :
  onOscillator (length (oscillators c)) f (working c k o g) =
    match f o with
    | JS.Done o' => Normal tt (working c k o' g)
    | JS.Raised e => Throw e (working c k o g)
    end.
Proof.
  unfold onOscillator, working. cbn [oscillators]. rewrite lookup_snoc.
  destruct (f o); [| done]. cbn. by rewrite insert_snoc.
Qed.

Lemma working_onGain c k o g f :
  onGain (length (gainNodes c)) f (working c k o g) =
    match f g with
    | JS.Done g' => Normal tt (working c k o g')
    | JS.Raised e => Throw e (working c k o g)
    end.
Proof.
  unfold onGain, working. cbn [gainNodes]. rewrite lookup_snoc.
  destruct (f g); [| done]. cbn. by rewrite insert_snoc.
Qed.

Lemma working_currentTime c k o g :
  currentTime (working c k o g) =
    Normal (timeline c (k + reads c)) (working c (S k) o g).
Proof. done. Qed.

Lemma working_one_more_tone c k o g :
  (k ≤ 4)%nat → one_more_tone c (working c k o g).
Proof.
  intros Hk. unfold one_more_tone, working. cbn.
  do 3 (split; [done |]). split; [lia |]. by exists o, g.
Qed.

(** The two nodes of a note are created first, and never refused. *)
Lemma createOscillator_createGain {A} (k : nat → nat → M AudioContext A) c :
  (let* oscillator := createOscillator in
   let* gainNode := createGain in
   k oscillator gainNode) c =
  k (length (oscillators c)) (length (gainNodes c))
    (working c 0 (mkOscillator 440 sine None None None) (mkGain [] None)).
Proof. done. Qed.

End OneNote.

Arguments working : simpl never.

Ltac refused_at_this_call :=
  cbn [JS.and_then]; eexists; split; [reflexivity |];
  apply working_one_more_tone; lia.

(** The outcome of the calls of one [playNote]: when the library refuses
    none, the note is in the context; when it refuses one, the exception
    of the first call refused is thrown and the context has the two nodes
    of the note, as far as the calls before have set them up. *)
Lemma playNote_in_outcome f d c :
  match playNote_refused f d c with
  | None => playNote_in f d c = Normal tt (playNote_on (JS.ToNumber f) d c)
  | Some e => ∃ c', playNote_in f d c = Throw e c' ∧ one_more_tone c c'
  end.
Proof.
  unfold playNote_refused, playNote_in. rewrite createOscillator_createGain.
  unfold bind.
  rewrite working_onOscillator. cbn [osc_connect].
  rewrite working_onGain. cbn [gain_connect].
  rewrite working_onOscillator. unfold set_frequency.
  destruct (JS.to_float (JS.ToNumber f)) as [e |]; [refused_at_this_call |].
  cbn [JS.and_then]. rewrite working_onOscillator. cbn [set_type].
  rewrite working_currentTime, working_onGain. unfold automate.
  destruct (refused (SetValueAtTime _ _)) as [e |]; [refused_at_this_call |].
  cbn [JS.and_then]. rewrite working_currentTime, working_onGain. unfold automate.
  destruct (refused (ExponentialRampToValueAtTime _ _)) as [e |];
    [refused_at_this_call |].
  cbn [JS.and_then]. rewrite working_currentTime, working_onOscillator. unfold start.
  destruct (JS.to_double _) as [e |]; [refused_at_this_call |].
  cbn [JS.and_then startTime].
  destruct (time _) as [e |]; [refused_at_this_call |].
  cbn [JS.and_then]. rewrite working_currentTime, working_onOscillator. unfold stop.
  destruct (JS.to_double _) as [e |]; [refused_at_this_call |].
  cbn [JS.and_then startTime].
  destruct (time _) as [e |]; [refused_at_this_call |].
  reflexivity.
Qed.

Section Notes.

Lemma playNote_in_normal f d c :
  playable_note f d c →
  playNote_in f d c = Normal tt (playNote_on (JS.ToNumber f) d c).
Proof.
  intros H. pose proof (playNote_in_outcome f d c) as Ho.
  unfold playable_note in H. by rewrite H in Ho.
Qed.

Lemma playNote_in_inv f d c c' :
  playNote_in f d c = Normal tt c' →
  playable_note f d c ∧ c' = playNote_on (JS.ToNumber f) d c.
Proof.
  intros H. pose proof (playNote_in_outcome f d c) as Ho.
  unfold playable_note. destruct (playNote_refused f d c) as [e |].
  - destruct Ho as (c1 & Ho & _). congruence.
  - split; [done | congruence].
Qed.

Lemma playNote_on_one_more_tone f d c : one_more_tone c (playNote_on f d c).
Proof.
  unfold one_more_tone, playNote_on. cbn.
  do 3 (split; [done |]). split; [lia |]. by eexists _, _.
Qed.

(** Whether it returns or throws, one [playNote] creates one oscillator
    and one gain node. *)
Lemma playNote_in_frame f d c : one_more_tone c (final (playNote_in f d c)).
Proof.
  pose proof (playNote_in_outcome f d c) as Ho.
  destruct (playNote_refused f d c) as [e |].
  - destruct Ho as (c1 & -> & H1). exact H1.
  - rewrite Ho. apply playNote_on_one_more_tone.
Qed.

Lemma valid_time_checks t :
  JS.and_then (JS.to_double t) (time t) = None ↔ valid_time t = true.
Proof.
  unfold JS.to_double, time, valid_time.
  destruct (is_finite t), (t <? 0); cbn; intuition discriminate.
Qed.

Lemma refused_setValue t :
  refused (SetValueAtTime 0.3 t) = None ↔ valid_time t = true.
Proof. apply valid_time_checks. Qed.

Lemma refused_ramp t :
  refused (ExponentialRampToValueAtTime 0.01 t) = None ↔ valid_time t = true.
Proof. apply valid_time_checks. Qed.

Lemma and_then_None a b : JS.and_then a b = None ↔ a = None ∧ b = None.
Proof. destruct a; cbn; intuition discriminate. Qed.

(** The library takes the calls of a note exactly when the frequency is a
    finite single-precision number and the times handed over, two looks
    at the clock and two looks with the duration added, are valid. *)
Lemma playable_note_iff f d c :
  playable_note f d c ↔
  JS.to_float (JS.ToNumber f) = None ∧
  valid_time (timeline c (reads c)) = true ∧
  valid_time (timeline c (1 + reads c) + d) = true ∧
  valid_time (timeline c (2 + reads c)) = true ∧
  valid_time (timeline c (3 + reads c) + d) = true.
Proof.
  unfold playable_note, playNote_refused.
  rewrite !and_then_None, refused_setValue, refused_ramp.
  rewrite <- !valid_time_checks, !and_then_None. tauto.
Qed.

End Notes.

(** ** A chord on the context *)

Section Chord.

Import AudioPlayer.

Lemma more_tones_refl n c : more_tones n c c.
Proof.
  unfold more_tones. do 3 (split; [done |]). split; [lia |].
  exists [], []. rewrite !app_nil_r. cbn. repeat split; lia.
Qed.

Lemma more_tones_step n c c1 c2 :
  one_more_tone c c1 → more_tones n c1 c2 → more_tones (S n) c c2.
Proof.
  intros (Hi1 & Hs1 & Ht1 & Hr1 & o & g & Ho1 & Hg1)
         (Hi2 & Hs2 & Ht2 & Hr2 & os & gs & Ho2 & Hg2 & Hlen & Hn).
  unfold more_tones. rewrite Hi2, Hs2, Ht2, Ho2, Hg2, Ho1, Hg1.
  do 3 (split; [done |]). split; [lia |].
  exists (o :: os), (g :: gs). rewrite <- !app_assoc. cbn.
  repeat split; lia.
Qed.

Lemma one_more_tone_more n c c1 : one_more_tone c c1 → more_tones (S n) c c1.
Proof. intros H. eapply more_tones_step; [exact H | apply more_tones_refl]. Qed.

Lemma more_tones_trans n k c c1 c2 :
  more_tones n c c1 → more_tones k c1 c2 → more_tones (n + k) c c2.
Proof.
  intros (Hi1 & Hs1 & Ht1 & Hr1 & os1 & gs1 & Ho1 & Hg1 & Hlen1 & Hn1)
         (Hi2 & Hs2 & Ht2 & Hr2 & os2 & gs2 & Ho2 & Hg2 & Hlen2 & Hn2).
  unfold more_tones. rewrite Hi2, Hs2, Ht2, Ho2, Hg2, Ho1, Hg1.
  do 3 (split; [done |]). split; [lia |].
  exists (os1 ++ os2), (gs1 ++ gs2). rewrite <- !app_assoc, !length_app.
  repeat split; lia.
Qed.

Lemma playChord_in_cons key keys d c :
  playChord_in (key :: keys) d c =
    match playNote_in (getFrequency key) d c with
    | Normal _ c1 => playChord_in keys d c1
    | Throw e c1 => Throw e c1
    end.
Proof. done. Qed.

(** Whether it returns or throws, a chord creates at most one tone for
    each key and leaves the rest of the context alone. *)
Lemma playChord_in_frame keys d : ∀ c,
  more_tones (length keys) c (final (playChord_in keys d c)).
Proof.
  induction keys as [| key keys IH]; intros c.
  - apply more_tones_refl.
  - rewrite playChord_in_cons.
    pose proof (playNote_in_frame (getFrequency key) d c) as H1.
    destruct (playNote_in (getFrequency key) d c) as [[] c1 | e c1];
      cbn [final length] in *.
    + eapply more_tones_step; [exact H1 | apply IH].
    + by apply one_more_tone_more.
Qed.

Lemma playChord_on_cons key keys d c :
  playChord_on (key :: keys) d c =
  playChord_on keys d (playNote_on (JS.ToNumber (getFrequency key)) d c).
Proof. done. Qed.

Lemma playChord_in_normal keys d : ∀ c,
  playable_chord keys d c →
  playChord_in keys d c = Normal tt (playChord_on keys d c).
Proof.
  induction keys as [| key keys IH]; intros c Hp; [done |].
  destruct Hp as [Hn Hp].
  rewrite playChord_in_cons, playNote_in_normal by done.
  by apply IH.
Qed.

Lemma playChord_in_inv keys d : ∀ c c',
  playChord_in keys d c = Normal tt c' →
  playable_chord keys d c ∧ c' = playChord_on keys d c.
Proof.
  induction keys as [| key keys IH]; intros c c' H.
  - injection H as <-. done.
  - rewrite playChord_in_cons in H.
    destruct (playNote_in (getFrequency key) d c) as [[] c1 | e c1] eqn:E;
      [| discriminate].
    apply playNote_in_inv in E as [Hn ->].
    apply IH in H as [Hp ->]. done.
Qed.

Lemma tone_shift c f key seconds i :
  tone (playNote_on f seconds c) seconds i key = tone c seconds (S i) key.
Proof.
  unfold tone, playNote_on. cbn [gainNodes reads timeline].
  rewrite length_app. cbn [length].
  replace (length (gainNodes c) + 1 + i)%nat
    with (length (gainNodes c) + S i)%nat by lia.
  replace (2 + (4 * i + (4 + reads c)))%nat
    with (2 + (4 * S i + reads c))%nat by lia.
  replace (3 + (4 * i + (4 + reads c)))%nat
    with (3 + (4 * S i + reads c))%nat by lia.
  done.
Qed.

Lemma envelope_shift c f seconds i :
  envelope (playNote_on f seconds c) seconds i = envelope c seconds (S i).
Proof.
  unfold envelope, playNote_on. cbn [reads timeline].
  replace (4 * i + (4 + reads c))%nat with (4 * S i + reads c)%nat by lia.
  done.
Qed.

(** What a chord that returns leaves in the context, field by field. *)
Lemma playChord_on_fields keys seconds : ∀ c,
  let c' := playChord_on keys seconds c in
  contextId c' = contextId c ∧ state c' = state c ∧ timeline c' = timeline c ∧
  reads c' = (4 * length keys + reads c)%nat ∧
  oscillators c' = oscillators c ++ imap (tone c seconds) keys ∧
  gainNodes c' = gainNodes c ++ imap (fun i _ => envelope c seconds i) keys.
Proof.
  induction keys as [| key keys IH]; intros c.
  - cbn. rewrite !app_nil_r. done.
  - cbv zeta. rewrite playChord_on_cons.
    destruct (IH (playNote_on (JS.ToNumber (getFrequency key)) seconds c))
      as (Hid & Hst & Htl & Hr & Ho & Hg).
    rewrite Hid, Hst, Htl, Hr, Ho, Hg.
    cbn [playNote_on contextId state timeline reads oscillators gainNodes length].
    do 3 (split; [done |]). split; [lia |].
    rewrite <- !app_assoc, !imap_cons. cbn [app].
    split; f_equal; apply (f_equal2 cons).
    + unfold tone. by rewrite Nat.add_0_r, Nat.mul_0_r.
    + apply imap_ext. intros i k _. apply tone_shift.
    + unfold envelope. by rewrite Nat.mul_0_r.
    + apply imap_ext. intros i k _. apply envelope_shift.
Qed.

Lemma tones_since_chord c keys seconds :
  tones_since c (playChord_on keys seconds c) = imap (tone c seconds) keys.
Proof.
  unfold tones_since.
  destruct (playChord_on_fields keys seconds c) as (_ & _ & _ & _ & -> & _).
  apply drop_app_length.
Qed.

Lemma gains_since_chord c keys seconds :
  gains_since c (playChord_on keys seconds c) =
    imap (fun i _ => envelope c seconds i) keys.
Proof.
  unfold gains_since.
  destruct (playChord_on_fields keys seconds c) as (_ & _ & _ & _ & _ & ->).
  apply drop_app_length.
Qed.

(** What the library has checked of the [i]-th key of a chord that it
    takes. *)
Lemma playable_chord_lookup keys d : ∀ c i key,
  playable_chord keys d c → keys !! i = Some key →
  JS.to_float (JS.ToNumber (getFrequency key)) = None ∧
  valid_time (timeline c (4 * i + reads c)) = true ∧
  valid_time (timeline c (1 + (4 * i + reads c)) + d) = true ∧
  valid_time (timeline c (2 + (4 * i + reads c))) = true ∧
  valid_time (timeline c (3 + (4 * i + reads c)) + d) = true.
Proof.
  induction keys as [| k keys IH]; intros c i key Hp Hi; [done |].
  destruct Hp as [Hn Hp]. destruct i as [| i]; cbn in Hi.
  - injection Hi as <-. rewrite Nat.mul_0_r. cbn [Nat.add].
    by apply playable_note_iff.
  - specialize (IH _ i key Hp Hi). cbn [playNote_on timeline reads] in IH.
    replace (4 * S i + reads c)%nat with (4 * i + (4 + reads c))%nat by lia.
    exact IH.
Qed.


Lemma playChord_final m c keys d :
  audioContext (self m) = Some c →
  final (playChord keys d m) = set_audioContext (final (playChord_in keys d c)) m.
Proof. intros Hc. by rewrite (playChord_lifts keys d m c Hc), final_lift. Qed.

(** [playChord] on an initialised engine, when the library takes the
    chord. *)
Lemma playChord_initialized m c keys d :
  audioContext (self m) = Some c → playable_chord keys d c →
  playChord keys d m = Normal tt (set_audioContext (playChord_on keys d c) m).
Proof.
  intros Hc Hp.
  by rewrite (playChord_lifts keys d m c Hc), playChord_in_normal.
Qed.

(** When [playChord] returns on an initialised engine, the library has
    taken the chord. *)
Lemma playChord_returned m c keys d m' :
  audioContext (self m) = Some c →
  playChord keys d m = Normal tt m' →
  playable_chord keys d c ∧ m' = set_audioContext (playChord_on keys d c) m.
Proof.
  intros Hc H. rewrite (playChord_lifts keys d m c Hc) in H.
  destruct (playChord_in keys d c) as [[] c' | e c'] eqn:E; [| discriminate].
  injection H as <-. apply playChord_in_inv in E as [Hp ->]. done.
Qed.

End Chord.

Lemma resumed_in_context clock :
  audioContext (self (resumed_in clock)) = Some (mkContext 0 running clock 0 [] []).
Proof. reflexivity. Qed.

Lemma initialize_when_initialized m :
  isInitialized (self m) = true → AudioPlayer.initialize m = Normal tt m.
Proof.
  intros H. unfold AudioPlayer.initialize, bind, gets. rewrite H. simpl.
  by destruct (window (realm m)).
Qed.

(** ** The audio engine *)

(** C2, at the chord c/4, e/4, g/4 held for one second on a running
    context whose timeline moves on by a render quantum while the call
    runs.  The call returns normally and leaves three tones; the first
    starts at 0 and the other two at 128/44100, so the tones of the chord
    do not share a start instant: [playNote] looks at the clock again for
    every key. *)
Theorem chord_unison_fails_on_moving_clock :
  let m := resumed_in quantum_clock in
  let c := mkContext 0 running quantum_clock 0 [] [] in
  let keys := ["c/4"; "e/4"; "g/4"]%string in
  AudioPlayer.playChord keys 1 m =
    Normal tt (set_audioContext (playChord_on keys 1 c) m) ∧
  startTime <$> tones_since c (playChord_on keys 1 c) =
    [Some 0; Some (128 / 44100); Some (128 / 44100)] ∧
  ¬ chord_unison m keys 1.
Proof.
  cbv zeta.
  assert (AudioPlayer.playChord ["c/4"; "e/4"; "g/4"]%string 1
            (resumed_in quantum_clock) =
          Normal tt
            (set_audioContext
               (playChord_on ["c/4"; "e/4"; "g/4"]%string 1
                  (mkContext 0 running quantum_clock 0 [] []))
               (resumed_in quantum_clock))) as Hplay.
  { apply playChord_initialized; [apply resumed_in_context |].
    cbn [playable_chord]. unfold playable_note. by vm_compute. }
  split; [exact Hplay |]. split; [reflexivity |].
  intros (t & m' & c & c' & Hp & Hc & Hc' & _ & Hall).
  rewrite resumed_in_context in Hc. apply (inj Some) in Hc. subst c.
  rewrite Hplay in Hp. apply (f_equal final) in Hp. cbn [final] in Hp.
  subst m'.
  cbn [set_audioContext self audioContext] in Hc'.
  apply (inj Some) in Hc'. subst c'. rewrite tones_since_chord in Hall.
  destruct (Forall_lookup_1 _ _ 0%nat _ Hall eq_refl) as [H0 _].
  destruct (Forall_lookup_1 _ _ 1%nat _ Hall eq_refl) as [H1 _].
  cbn [tone startTime] in H0, H1. rewrite <- H0 in H1.
  apply (inj Some) in H1.
  apply (f_equal (fun z => z =? 0)) in H1. vm_compute in H1. discriminate H1.
Qed.

(** C4: on an engine without an audio context, playChord returns normally
    and leaves the whole state as it was: no node is created, there being
    no context to create one in. *)
Theorem playChord_uninitialized_noop m keys seconds :
  audioContext (self m) = None →
  AudioPlayer.playChord keys seconds m = Normal tt m ∧
  audioContext (self (final (AudioPlayer.playChord keys seconds m))) = None.
Proof.
  intros H. rewrite playChord_uninitialized by done. done.
Qed.

Lemma playChord_uninitialized_noop_witness :
  audioContext (self (boot None)) = None ∧
  AudioPlayer.playChord ["c/4"; "e/4"]%string 1 (boot None) = Normal tt (boot None) ∧
  audioContext
    (self (final (AudioPlayer.playChord ["c/4"; "e/4"]%string 1 (boot None)))) = None.
Proof.
  split; [reflexivity |].
  exact (playChord_uninitialized_noop (boot None) ["c/4"; "e/4"]%string 1 eq_refl).
Defined.

(** C8: once a call of initialize has succeeded (it ran in a realm with a
    window and returned normally), the engine is initialised, and any number
    of further calls, in whatever realm, return normally and change
    nothing: the player keeps its context and no further context is
    constructed. *)
Theorem initialize_idempotent m m1 :
  AudioPlayer.initialize m = Normal tt m1 →
  window (realm m) ≠ None →
  isInitialized (self m1) = true ∧
  ∀ (r : Realm) (n : nat),
    times n AudioPlayer.initialize (mkMachine r (self m1)) =
      Normal tt (mkMachine r (self m1)).
Proof.
  intros Hcall Hwindow.
  assert (isInitialized (self m1) = true) as Hinit.
  { revert Hcall. unfold AudioPlayer.initialize, bind, gets, new, modify.
    destruct (isInitialized (self m)) eqn:Hi; simpl.
    - destruct (window (realm m)); intros [= <-]; done.
    - destruct (window (realm m)) as [w |]; [| done].
      destruct (or_else (window_AudioContext w) (window_webkitAudioContext w));
        [| done].
      by intros [= <-]. }
  split; [done |].
  intros r n. induction n as [| n IH]; [done |].
  simpl. unfold bind at 1.
  rewrite initialize_when_initialized by done. done.
Qed.

Lemma initialize_idempotent_witness :
  let m := boot (browser quantum_clock) in
  let m1 := initialized_in quantum_clock in
  (AudioPlayer.initialize m = Normal tt m1 ∧ window (realm m) ≠ None) ∧
  isInitialized (self m1) = true ∧
  ∀ (r : Realm) (n : nat),
    times n AudioPlayer.initialize (mkMachine r (self m1)) =
      Normal tt (mkMachine r (self m1)).
Proof.
  cbv zeta.
  assert (H : window (realm (boot (browser quantum_clock))) ≠ None)
    by discriminate.
  split; [split; [reflexivity | exact H] |].
  exact (initialize_idempotent (boot (browser quantum_clock))
           (initialized_in quantum_clock) eq_refl H).
Defined.

(** C10: on an initialised engine, playChord with no keys returns normally
    and leaves the whole state as it was; no oscillator and no gain node is
    created. *)
Theorem playChord_no_keys_noop m c seconds :
  audioContext (self m) = Some c →
  AudioPlayer.playChord [] seconds m = Normal tt m ∧
  ∀ c', audioContext (self (final (AudioPlayer.playChord [] seconds m))) = Some c' →
        oscillators c' = oscillators c ∧ gainNodes c' = gainNodes c.
Proof.
  intros Hc.
  assert (AudioPlayer.playChord [] seconds m = Normal tt m) as ->.
  { unfold AudioPlayer.playChord. by rewrite guarded, Hc. }
  split; [done |]. cbn [final]. intros c'. rewrite Hc. by intros [= <-].
Qed.

Lemma playChord_no_keys_noop_witness :
  let m := resumed_in quantum_clock in
  let c := mkContext 0 running quantum_clock 0 [] [] in
  audioContext (self m) = Some c ∧
  AudioPlayer.playChord [] 1 m = Normal tt m ∧
  ∀ c', audioContext (self (final (AudioPlayer.playChord [] 1 m))) = Some c' →
        oscillators c' = oscillators c ∧ gainNodes c' = gainNodes c.
Proof.
  cbv zeta. split; [reflexivity |].
  exact (playChord_no_keys_noop (resumed_in quantum_clock)
           (mkContext 0 running quantum_clock 0 [] []) 1 eq_refl).
Defined.

Section Invariant.

Import AudioPlayer.

(** Replacing the context by a context keeps the invariant. *)
Lemma invariant_set_audioContext m c c' :
  audioContext (self m) = Some c →
  initialized_iff_context (self m) →
  initialized_iff_context (self (set_audioContext c' m)).
Proof.
  unfold initialized_iff_context. intros Hc [H1 H2]. simpl. split.
  - done.
  - intros _. apply H2. by rewrite Hc.
Qed.

Lemma invariant_initialize m :
  initialized_iff_context (self m) →
  initialized_iff_context (self (final (initialize m))).
Proof.
  intros Hinv. unfold initialize, bind, gets, new.
  destruct (isInitialized (self m)) eqn:Hi; simpl.
  { by destruct (window (realm m)). }
  destruct (window (realm m)) as [w |]; [| done].
  destruct (or_else (window_AudioContext w) (window_webkitAudioContext w));
    [| done].
  simpl. unfold initialized_iff_context. simpl. split; done.
Qed.

Lemma invariant_resume m :
  initialized_iff_context (self m) →
  initialized_iff_context (self (final (resume m))).
Proof.
  intros Hinv. unfold resume, bind, gets.
  destruct (audioContext (self m)) as [c |] eqn:Hc; [| done].
  destruct (state c); [| done | done].
  unfold onContext. rewrite Hc, final_lift.
  by apply (invariant_set_audioContext m c).
Qed.

Lemma invariant_playChord m keys seconds :
  initialized_iff_context (self m) →
  initialized_iff_context (self (final (playChord keys seconds m))).
Proof.
  intros Hinv.
  destruct (audioContext (self m)) as [c |] eqn:Hc.
  - rewrite (playChord_final m c) by done.
    by apply (invariant_set_audioContext m c).
  - by rewrite playChord_uninitialized.
Qed.

End Invariant.

(** C9: the flag isInitialized is set exactly when the audio context is not
    null.  This holds of a new player and is kept by initialize, resume and
    playChord, whether they return or throw. *)
Theorem initialized_iff_context_invariant :
  initialized_iff_context new_AudioPlayer ∧
  ∀ m, initialized_iff_context (self m) →
       initialized_iff_context (self (final (AudioPlayer.initialize m))) ∧
       initialized_iff_context (self (final (AudioPlayer.resume m))) ∧
       ∀ keys seconds,
         initialized_iff_context (self (final (AudioPlayer.playChord keys seconds m))).
Proof.
  split.
  - unfold initialized_iff_context. simpl. split; done.
  - intros m Hinv. split; [| split].
    + by apply invariant_initialize.
    + by apply invariant_resume.
    + intros keys seconds. by apply invariant_playChord.
Qed.

Lemma initialized_iff_context_invariant_witness :
  initialized_iff_context (self (boot (browser quantum_clock))) ∧
  initialized_iff_context (self (initialized_in quantum_clock)) ∧
  initialized_iff_context
    (self (final (AudioPlayer.resume (boot (browser quantum_clock))))) ∧
  initialized_iff_context
    (self (final (AudioPlayer.playChord ["c/4"%string] 1
                    (boot (browser quantum_clock))))).
Proof.
  assert (H : initialized_iff_context (self (boot (browser quantum_clock)))).
  { unfold initialized_iff_context. simpl. split; done. }
  split; [exact H |].
  destruct (proj2 initialized_iff_context_invariant
              (boot (browser quantum_clock)) H) as (Hi & Hr & Hp).
  split; [exact Hi |]. split; [exact Hr |]. apply Hp.
Defined.

(** ** The scheduler's fold *)

Section Fold.

Variable BEAT_DURATION : number.
Context {Effect : Type}.
Variable audioPlayer : Player.
Variable onNoteStart : nat → Effect.
Variable onComplete : Effect.

Local Abbreviation B := BEAT_DURATION.

(** Whatever [scheduleAction] does, the fold makes the calls of
    [calls_from], in that order. *)
Lemma reduce_from_calls {Timers} (sched : Action Effect → number → Timers → Timers)
    notes : ∀ index delay s,
  reduce_from (fun delay note index =>
                 scheduleNotePlay B sched note index delay audioPlayer onNoteStart)
              notes index delay s =
    (end_of B notes delay,
     fold_left (fun s call => sched call.1 call.2 s)
               (calls_from B audioPlayer onNoteStart notes index delay) s).
Proof.
  induction notes as [| note rest IH]; intros index delay s; [done |].
  cbn [reduce_from scheduleNotePlay]. rewrite IH. done.
Qed.

Lemma playAllNotes_calls {Timers} (sched : Action Effect → number → Timers → Timers)
    notes s :
  playAllNotes B sched notes audioPlayer onNoteStart onComplete s =
    fold_left (fun s call => sched call.1 call.2 s)
      (calls_from B audioPlayer onNoteStart notes 0 0 ++
         [([Invoke onComplete], end_of B notes 0 * 1000)]) s.
Proof.
  unfold playAllNotes, reduce. rewrite reduce_from_calls.
  by rewrite fold_left_app.
Qed.

Lemma fold_record_call (calls log : list (Action Effect * number)) :
  fold_left (fun s call => record_call call.1 call.2 s) calls log = log ++ calls.
Proof.
  revert log. induction calls as [| [a ms] calls IH]; intros log; simpl.
  - by rewrite app_nil_r.
  - rewrite IH. unfold record_call. by rewrite <- app_assoc.
Qed.

(** The calls of the fold, each with the accumulator it was made at. *)
Lemma calls_from_imap notes : ∀ index delay,
  calls_from B audioPlayer onNoteStart notes index delay =
    imap (fun i note =>
            (note_action B note (index + i) audioPlayer onNoteStart,
             end_of B (take i notes) delay * 1000)) notes.
Proof.
  induction notes as [| note rest IH]; intros index delay; [done |].
  cbn [calls_from]. rewrite imap_cons, IH. apply (f_equal2 cons).
  - by rewrite Nat.add_0_r.
  - apply imap_ext. intros i n _. unfold compose.
    by replace (S index + i)%nat with (index + S i)%nat by lia.
Qed.

Lemma offset_length notes : offset B notes (length notes) = end_of B notes 0.
Proof. unfold offset. by rewrite firstn_all. Qed.

(** What a run arms: an action for each note, at the offset of the note,
    and the completion action at the offset behind the last note. *)
Lemma armed_by_imap notes :
  armed_by B notes audioPlayer onNoteStart onComplete =
    imap (fun i note =>
            (note_action B note i audioPlayer onNoteStart,
             offset B notes i * 1000)) notes ++
    [([Invoke onComplete], offset B notes (length notes) * 1000)].
Proof.
  unfold armed_by. rewrite playAllNotes_calls, fold_record_call.
  by rewrite calls_from_imap, offset_length.
Qed.

Lemma armed_by_lookup_note notes i note :
  notes !! i = Some note →
  armed_by B notes audioPlayer onNoteStart onComplete !! i =
    Some (note_action B note i audioPlayer onNoteStart, offset B notes i * 1000).
Proof.
  intros Hi. rewrite armed_by_imap.
  rewrite lookup_app_l by (rewrite length_imap; by eapply lookup_lt_Some).
  by rewrite list_lookup_imap, Hi.
Qed.

Lemma armed_by_lookup_complete notes :
  armed_by B notes audioPlayer onNoteStart onComplete !! length notes =
    Some ([Invoke onComplete], offset B notes (length notes) * 1000).
Proof.
  rewrite armed_by_imap.
  rewrite lookup_app_r by (by rewrite length_imap).
  by rewrite length_imap, Nat.sub_diag.
Qed.

Lemma length_armed_by notes :
  length (armed_by B notes audioPlayer onNoteStart onComplete) = S (length notes).
Proof. rewrite armed_by_imap, length_app, length_imap. simpl. lia. Qed.

Lemma offset_0 notes : offset B notes 0 = 0.
Proof. unfold offset. by rewrite take_0. Qed.

(** One step of the fold: the rounded product is added to the offset and
    the sum is rounded. *)
Lemma offset_step notes i note :
  notes !! i = Some note →
  offset B notes (S i) = offset B notes i + duration note * B.
Proof.
  intros Hi. unfold offset, end_of.
  by rewrite (take_S_r _ _ _ Hi), fold_left_app.
Qed.

Lemma offset_beyond notes i :
  (length notes ≤ i)%nat → offset B notes i = offset B notes (length notes).
Proof.
  intros Hi. unfold offset. by rewrite firstn_all, take_ge.
Qed.

Section NonNegative.

Hypothesis B_positive : (0 <? B) = true.
Hypothesis B_finite : (B <? infinity) = true.
Variable notes : list Note.
Hypothesis durations : Forall (fun note => (0 <=? duration note) = true) notes.

Lemma offset_le_next i :
  (0 <=? offset B notes i) = true →
  (offset B notes i <=? offset B notes (S i)) = true ∧
  (0 <=? offset B notes (S i)) = true.
Proof.
  intros H0. destruct (notes !! i) as [note |] eqn:Hi.
  - rewrite (offset_step _ _ _ Hi). apply Binary64.add_ge; [done |].
    apply Binary64.mul_nonneg; [| done | done].
    by apply (Forall_lookup_1 _ _ _ _ durations Hi).
  - apply lookup_ge_None in Hi.
    rewrite (offset_beyond _ (S i)) by lia. rewrite <- (offset_beyond _ i) by lia.
    split; [by apply Binary64.leb_refl | done].
Qed.

Lemma offset_nonneg i : (0 <=? offset B notes i) = true.
Proof.
  induction i as [| i IH]; [by rewrite offset_0 |].
  by apply offset_le_next.
Qed.

Lemma offset_mono i j :
  (i ≤ j)%nat → (offset B notes i <=? offset B notes j) = true.
Proof.
  intros Hij. induction Hij as [| j Hij IH].
  - apply Binary64.leb_refl, offset_nonneg.
  - apply (Binary64.leb_trans _ (offset B notes j)); try apply offset_nonneg.
    + exact IH.
    + apply offset_le_next, offset_nonneg.
Qed.

End NonNegative.

End Fold.

(** C1 as stated, on ten notes of one beat each at a tenth of a second per
    beat: the delays of the armed actions are not the prefix sums of the
    durations times the beat duration.  The action of the ninth note is
    armed at 799.99999999999989 ms, the accumulator having added 0.1
    eight times, where [(1 + ... + 1) * 0.1 * 1000] is 800. *)
Lemma offsets_are_not_prefix_sums :
  offset 0.1 ten_beats 8 ≠ prefix_sum_offset 0.1 ten_beats 8 ∧
  ¬ ∀ i a ms,
      armed_by 0.1 ten_beats thePlayer (fun i : nat => i) 10%nat !! i = Some (a, ms) →
      ms = prefix_sum_offset 0.1 ten_beats i * 1000.
Proof.
  split.
  - intros E. apply (f_equal (fun z => z =? 0.8)) in E. vm_compute in E.
    discriminate E.
  - intros H.
    pose proof (H 8%nat _ _ (armed_by_lookup_note 0.1 thePlayer (fun i : nat => i)
                               10%nat ten_beats 8 _ eq_refl)) as E.
    apply (f_equal (fun z => z =? 800)) in E. vm_compute in E. discriminate E.
Qed.

(** C1, amended: the i-th action of a run is armed at offset(i) seconds,
    in milliseconds, where offset(0) is 0 and offset(i+1) is offset(i)
    plus the duration of note i times the beat duration, product and sum
    each rounded to a double as the fold computes them; the completion
    action is armed at the offset behind the last note.  With a beat
    duration that is positive and finite and durations that are not
    negative, the offsets never decrease. *)
Theorem offsets_are_running_sums {Effect} BEAT_DURATION notes audioPlayer
    (onNoteStart : nat → Effect) (onComplete : Effect) :
  let calls := armed_by BEAT_DURATION notes audioPlayer onNoteStart onComplete in
  (∀ i note, notes !! i = Some note →
     ∃ a, calls !! i = Some (a, offset BEAT_DURATION notes i * 1000)) ∧
  offset BEAT_DURATION notes 0 = 0 ∧
  (∀ i note, notes !! i = Some note →
     offset BEAT_DURATION notes (S i) =
       offset BEAT_DURATION notes i + duration note * BEAT_DURATION) ∧
  calls !! length notes =
    Some ([Invoke onComplete], offset BEAT_DURATION notes (length notes) * 1000) ∧
  ((0 <? BEAT_DURATION) = true → (BEAT_DURATION <? infinity) = true →
   Forall (fun note => (0 <=? duration note) = true) notes →
   ∀ i j, (i ≤ j)%nat →
     (offset BEAT_DURATION notes i <=? offset BEAT_DURATION notes j) = true).
Proof.
  cbv zeta. split; [| split; [| split; [| split]]].
  - intros i note Hi. eexists. by apply armed_by_lookup_note.
  - apply offset_0.
  - intros i note Hi. by apply offset_step.
  - apply armed_by_lookup_complete.
  - intros Hpos Hfin Hdur i j Hij. by apply offset_mono.
Qed.

Lemma offsets_are_running_sums_witness :
  ((0 <? 0.1) = true ∧ (0.1 <? infinity) = true ∧
   Forall (fun note => (0 <=? duration note) = true) ten_beats) ∧
  ∀ i j, (i ≤ j)%nat → (offset 0.1 ten_beats i <=? offset 0.1 ten_beats j) = true.
Proof.
  assert (H : Forall (fun note => (0 <=? duration note) = true) ten_beats).
  { unfold ten_beats. cbn [replicate]. repeat constructor. }
  split; [split; [reflexivity | split; [reflexivity | exact H]] |].
  exact (proj2 (proj2 (proj2 (proj2
           (offsets_are_running_sums 0.1 ten_beats thePlayer (fun i : nat => i)
              10%nat)))) eq_refl eq_refl H).
Defined.

(** C5: a run on no notes arms one action, the completion callback alone,
    with a delay of zero; no armed action invokes onNoteStart or
    playChord. *)
Theorem empty_run_completes_at_once {Effect} BEAT_DURATION audioPlayer
    (onNoteStart : nat → Effect) (onComplete : Effect) :
  let calls := armed_by BEAT_DURATION [] audioPlayer onNoteStart onComplete in
  calls = [([Invoke onComplete], 0)] ∧
  ∀ a ms call, (a, ms) ∈ calls → call ∈ a → call = Invoke onComplete.
Proof.
  cbv zeta.
  assert (armed_by BEAT_DURATION [] audioPlayer onNoteStart onComplete =
          [([Invoke onComplete], 0)]) as -> by reflexivity.
  split; [done |].
  intros a ms call Ha Hcall.
  apply list_elem_of_singleton in Ha. injection Ha as -> _.
  by apply list_elem_of_singleton in Hcall.
Qed.

(** C6: the action armed for the note at position i, at that note's offset,
    is the one closure that first invokes onNoteStart(i) and then calls
    playChord of the audio engine with the keys of the note and its
    duration times the beat duration; a run arms one action per note and
    one for completion. *)
Theorem note_action_highlights_then_plays {Effect} BEAT_DURATION notes audioPlayer
    (onNoteStart : nat → Effect) (onComplete : Effect) i note :
  notes !! i = Some note →
  armed_by BEAT_DURATION notes audioPlayer onNoteStart onComplete !! i =
    Some ([ Invoke (onNoteStart i);
            PlayChord audioPlayer (keys note) (duration note * BEAT_DURATION) ],
          offset BEAT_DURATION notes i * 1000) ∧
  length (armed_by BEAT_DURATION notes audioPlayer onNoteStart onComplete) =
    S (length notes).
Proof.
  intros Hi. split; [by apply armed_by_lookup_note | apply length_armed_by].
Qed.

Lemma note_action_highlights_then_plays_witness :
  createNoteData !! 1%nat = Some (mkNote ["d/4"%string] 0.5) ∧
  armed_by 1 createNoteData thePlayer (fun i : nat => i) 4%nat !! 1%nat =
    Some ([ Invoke 1%nat; PlayChord thePlayer ["d/4"%string] (0.5 * 1) ],
          offset 1 createNoteData 1 * 1000) ∧
  length (armed_by 1 createNoteData thePlayer (fun i : nat => i) 4%nat) = 5%nat.
Proof.
  split; [reflexivity |].
  exact (note_action_highlights_then_plays 1 createNoteData thePlayer
           (fun i : nat => i) 4%nat 1%nat (mkNote ["d/4"%string] 0.5) eq_refl).
Defined.

(** ** Runs that overlap on the host's timers *)

Section Timers.

Context {Effect : Type}.
Implicit Types (loop : Host.EventLoop Effect) (x : Host.Timer Effect).










End Timers.


(** A session on the four notes of the score at one second per beat: a
    second run is started at 600 ms and the clock left to run to five
    seconds.  The first run has invoked its first two callbacks by then;
    afterwards the second run plays in full and no callback of the first
    is invoked. *)
Example second_run_alone_fires :
  Host.fired (before_second_run 1 createNoteData [600] (boot None)) =
    [(0, onNoteStartOf 1 0); (500, onNoteStartOf 1 1)] ∧
  fired_since_second_run 1 createNoteData createNoteData [600] [5000] (boot None) =
    [(600, onNoteStartOf 2 0); (1100, onNoteStartOf 2 1);
     (1600, onNoteStartOf 2 2); (2100, onNoteStartOf 2 3);
     (2600, onCompleteOf 2)].
Proof. split; by vm_compute. Qed.

(** * Further properties of the code *)

(** ** initialize and resume *)

(** X1: where Web Audio is missing.  Outside a browser (no window)
    initialize returns normally and changes nothing; in a window that
    offers neither AudioContext nor webkitAudioContext, initialize on an
    engine that is not initialised throws a TypeError and leaves the engine
    as it was, still not initialised. *)
Theorem initialize_without_web_audio m :
  (window (realm m) = None → AudioPlayer.initialize m = Normal tt m) ∧
  (∀ w, window (realm m) = Some w →
        window_AudioContext w = None → window_webkitAudioContext w = None →
        isInitialized (self m) = false →
        AudioPlayer.initialize m = Throw JS.TypeError m).
Proof.
  split.
  - intros Hw. unfold AudioPlayer.initialize, bind, gets. rewrite Hw.
    by destruct (isInitialized (self m)).
  - intros w Hw H1 H2 Hi. unfold AudioPlayer.initialize, bind, gets, new.
    rewrite Hw, Hi, H1, H2. done.
Qed.

Lemma initialize_without_web_audio_witness :
  let m := boot (Some (mkWindow None None)) in
  (window (realm m) = Some (mkWindow None None) ∧
   isInitialized (self m) = false) ∧
  AudioPlayer.initialize m = Throw JS.TypeError m.
Proof.
  cbv zeta. split; [split; reflexivity |].
  exact (proj2 (initialize_without_web_audio (boot (Some (mkWindow None None))))
           (mkWindow None None) eq_refl eq_refl eq_refl eq_refl).
Defined.

(** X2: the first call of initialize in a browser.  On an engine that is
    not initialised, in a window that offers a constructor, initialize
    returns normally, constructs exactly one context, with AudioContext
    when the window has it and with webkitAudioContext otherwise, and
    stores it: the context is new (no nodes, the clock not looked at), the
    flag is set, the window is as before. *)
Theorem initialize_constructs_one_context m w k :
  isInitialized (self m) = false →
  window (realm m) = Some w →
  or_else (window_AudioContext w) (window_webkitAudioContext w) = Some k →
  ∃ m' c,
    AudioPlayer.initialize m = Normal tt m' ∧
    constructed (realm m') = S (constructed (realm m)) ∧
    window (realm m') = window (realm m) ∧
    isInitialized (self m') = true ∧
    audioContext (self m') = Some c ∧
    contextId c = constructed (realm m) ∧
    state c = initialState k ∧ timeline c = hardwareClock k ∧
    reads c = 0%nat ∧ oscillators c = [] ∧ gainNodes c = [] ∧
    (∀ k', window_AudioContext w = Some k' → k = k').
Proof.
  intros Hi Hw Hk. unfold AudioPlayer.initialize, bind, gets, new, modify.
  rewrite Hi, Hw, Hk. cbn.
  eexists _, _. split; [done |]. rewrite Hw. cbn.
  repeat (split; [done |]).
  intros k' Hk'. rewrite Hk' in Hk. by injection Hk as ->.
Qed.

Lemma initialize_constructs_one_context_witness :
  let k := mkConstructor suspended quantum_clock in
  let w := mkWindow None (Some k) in
  let m := boot (Some w) in
  (isInitialized (self m) = false ∧ window (realm m) = Some w ∧
   or_else (window_AudioContext w) (window_webkitAudioContext w) = Some k) ∧
  ∃ m' c,
    AudioPlayer.initialize m = Normal tt m' ∧
    constructed (realm m') = S (constructed (realm m)) ∧
    window (realm m') = window (realm m) ∧
    isInitialized (self m') = true ∧
    audioContext (self m') = Some c ∧
    contextId c = constructed (realm m) ∧
    state c = initialState k ∧ timeline c = hardwareClock k ∧
    reads c = 0%nat ∧ oscillators c = [] ∧ gainNodes c = [] ∧
    (∀ k', window_AudioContext w = Some k' → k = k').
Proof.
  cbv zeta. split; [repeat split |].
  exact (initialize_constructs_one_context
           (boot (Some (mkWindow None (Some (mkConstructor suspended quantum_clock)))))
           (mkWindow None (Some (mkConstructor suspended quantum_clock)))
           (mkConstructor suspended quantum_clock) eq_refl eq_refl eq_refl).
Defined.

(** What resume does to a context: a suspended one runs, any other is kept. *)
Lemma resume_cases m :
  (audioContext (self m) = None ∧ AudioPlayer.resume m = Normal tt m) ∨
  (∃ c, audioContext (self m) = Some c ∧ state c ≠ suspended ∧
        AudioPlayer.resume m = Normal tt m) ∨
  (∃ c, audioContext (self m) = Some c ∧ state c = suspended ∧
        AudioPlayer.resume m = Normal tt (set_audioContext (woken c) m)).
Proof.
  unfold AudioPlayer.resume, bind, gets, onContext.
  destruct (audioContext (self m)) as [c |] eqn:Hc; [| by left].
  right. destruct (state c) eqn:Hs.
  - right. exists c. rewrite Hc. unfold WebAudio.resume. rewrite Hs. done.
  - left. exists c. rewrite Hs. done.
  - left. exists c. rewrite Hs. done.
Qed.

(** X3: resume never throws and is idempotent.  It changes nothing but the
    state of a suspended context, which becomes running: the realm, the
    flag, the clock and every node stay as they were, and an engine without
    a context, or with a running or closed one, is left untouched. *)
Theorem resume_only_wakes_the_context m :
  let m' := final (AudioPlayer.resume m) in
  AudioPlayer.resume m = Normal tt m' ∧
  AudioPlayer.resume m' = Normal tt m' ∧
  realm m' = realm m ∧
  isInitialized (self m') = isInitialized (self m) ∧
  (audioContext (self m) = None → m' = m) ∧
  ∀ c, audioContext (self m) = Some c →
       (state c ≠ suspended → m' = m) ∧
       ∃ c', audioContext (self m') = Some c' ∧
             state c' = (match state c with suspended => running | s => s end) ∧
             contextId c' = contextId c ∧ timeline c' = timeline c ∧
             reads c' = reads c ∧ oscillators c' = oscillators c ∧
             gainNodes c' = gainNodes c.
Proof.
  cbv zeta.
  destruct (resume_cases m) as [[Hc Hr] | [(c & Hc & Hs & Hr) | (c & Hc & Hs & Hr)]];
    rewrite Hr; cbn [final].
  - rewrite Hr, Hc. do 5 (split; [done |]). done.
  - rewrite Hr, Hc. do 5 (split; [done |]).
    intros c0 [= <-]. split; [done |]. exists c.
    destruct (state c); done.
  - split; [done |]. split.
    { unfold AudioPlayer.resume, bind, gets. done. }
    rewrite Hc. cbn. do 3 (split; [done |]).
    intros c0 [= <-]. split; [done |].
    eexists. split; [done |]. rewrite Hs. done.
Qed.

Lemma resume_only_wakes_the_context_witness :
  let m := initialized_in quantum_clock in
  let c := construct (mkConstructor suspended quantum_clock) 0 in
  audioContext (self m) = Some c ∧
  ∃ c', audioContext (self (final (AudioPlayer.resume m))) = Some c' ∧
        state c' = running ∧
        contextId c' = contextId c ∧ timeline c' = timeline c ∧
        reads c' = reads c ∧ oscillators c' = oscillators c ∧
        gainNodes c' = gainNodes c.
Proof.
  cbv zeta. split; [reflexivity |].
  exact (proj2 (proj2 (proj2 (proj2 (proj2 (proj2
           (resume_only_wakes_the_context (initialized_in quantum_clock))))))
           (construct (mkConstructor suspended quantum_clock) 0) eq_refl)).
Defined.

(** ** playChord *)

Section Chords.

Import AudioPlayer.

(** Every call [playNote] makes on the context does the same whatever
    the state of the context. *)
Lemma ignores_state_bind {A B} (p : M AudioContext A) (k : A → M AudioContext B) :
  ignores_state p → (∀ a, ignores_state (k a)) → ignores_state (bind p k).
Proof.
  intros Hp Hk c. unfold bind. rewrite Hp.
  destruct (p c) as [a c' | e c']; [apply Hk | done].
Qed.

Lemma ignores_state_onOscillator o f : ignores_state (onOscillator o f).
Proof.
  intros c. unfold onOscillator. cbn [woken oscillators].
  destruct (oscillators c !! o) as [n |]; [| done]. by destruct (f n).
Qed.

Lemma ignores_state_onGain g f : ignores_state (onGain g f).
Proof.
  intros c. unfold onGain. cbn [woken gainNodes].
  destruct (gainNodes c !! g) as [n |]; [| done]. by destruct (f n).
Qed.

Lemma ignores_state_forEach {X} (f : X → M AudioContext unit) l :
  (∀ x, ignores_state (f x)) → ignores_state (forEach f l).
Proof.
  intros Hf. induction l as [| x l IH]; [done |].
  cbn [forEach]. apply ignores_state_bind; [apply Hf | intros _; apply IH].
Qed.

Lemma playNote_in_ignores_state frequency seconds :
  ignores_state (playNote_in frequency seconds).
Proof.
  unfold playNote_in.
  repeat (apply ignores_state_bind;
          [first [ apply ignores_state_onOscillator
                 | apply ignores_state_onGain
                 | done ]
          | intros ?]).
  apply ignores_state_onOscillator.
Qed.

(** [array.forEach] over two lists put together. *)
Lemma forEach_app {St X} (f : X → M St unit) l1 l2 s :
  forEach f (l1 ++ l2) s = (forEach f l1 ;;; forEach f l2) s.
Proof.
  revert s. induction l1 as [| x l1 IH]; intros s; [done |].
  cbn [app forEach]. unfold bind in *.
  destruct (f x s) as [[] s1 | e s1]; [apply IH | done].
Qed.


End Chords.

(** X4: playChord does not look at the state of the context.  On the
    same readings of the clock, playChord on an engine whose context has
    been resumed comes to the completion it comes to on the engine as it
    is, return or exception, and leaves the same nodes and the same looks
    at the clock: a chord played on a suspended context is scheduled all
    the same. *)
Theorem playChord_ignores_context_state keys seconds m :
  AudioPlayer.playChord keys seconds (wake m) =
  on_final wake (AudioPlayer.playChord keys seconds m).
Proof.
  unfold wake at 1. destruct (audioContext (self m)) as [c |] eqn:Hc.
  - rewrite (playChord_lifts keys seconds (set_audioContext (woken c) m)
               (woken c) eq_refl).
    rewrite (playChord_lifts keys seconds m c Hc), lift_set.
    unfold playChord_in.
    rewrite (ignores_state_forEach _ keys
               (fun key => playNote_in_ignores_state _ seconds) c).
    by destruct (forEach _ keys c).
  - rewrite playChord_uninitialized by done. cbn [on_final].
    unfold wake. by rewrite Hc.
Qed.

(** X5: whether it returns or throws, playChord leaves the realm, the
    flag and the identity, state and clock of the context alone; every
    node that was there before the call is still there, unchanged, before
    the new ones; and the call creates as many gain nodes as oscillators,
    at most one of each for a key. *)
Theorem playChord_keeps_nodes keys seconds m :
  let m' := final (AudioPlayer.playChord keys seconds m) in
  realm m' = realm m ∧
  isInitialized (self m') = isInitialized (self m) ∧
  (audioContext (self m) = None → m' = m) ∧
  ∀ c, audioContext (self m) = Some c →
       ∃ c', audioContext (self m') = Some c' ∧
             contextId c' = contextId c ∧ state c' = state c ∧
             timeline c' = timeline c ∧
             oscillators c `prefix_of` oscillators c' ∧
             gainNodes c `prefix_of` gainNodes c' ∧
             length (tones_since c c') = length (gains_since c c') ∧
             (length (tones_since c c') ≤ length keys)%nat.
Proof.
  cbv zeta. destruct (audioContext (self m)) as [c |] eqn:Hc.
  - rewrite (playChord_final m c) by done.
    do 2 (split; [done |]). split; [done |].
    intros c0 [= <-]. exists (final (playChord_in keys seconds c)).
    destruct (playChord_in_frame keys seconds c)
      as (Hid & Hst & Htl & _ & os & gs & Ho & Hg & Hlen & Hn).
    unfold tones_since, gains_since. rewrite Ho, Hg, !drop_app_length.
    do 4 (split; [done |]). do 2 (split; [by apply prefix_app_r |]). done.
  - rewrite playChord_uninitialized by done. cbn [final].
    do 3 (split; [done |]). intros c. by rewrite Hc.
Qed.

Lemma playChord_keeps_nodes_witness :
  let m := resumed_in quantum_clock in
  let c := mkContext 0 running quantum_clock 0 [] [] in
  let keys := ["c/4"; "constructor"; "e/4"]%string in
  audioContext (self m) = Some c ∧
  ∃ c', audioContext (self (final (AudioPlayer.playChord keys 1 m))) = Some c' ∧
        contextId c' = contextId c ∧ state c' = state c ∧
        timeline c' = timeline c ∧
        oscillators c `prefix_of` oscillators c' ∧
        gainNodes c `prefix_of` gainNodes c' ∧
        length (tones_since c c') = length (gains_since c c') ∧
        (length (tones_since c c') ≤ length keys)%nat.
Proof.
  cbv zeta. split; [reflexivity |].
  exact (proj2 (proj2 (proj2
           (playChord_keeps_nodes ["c/4"; "constructor"; "e/4"]%string 1
              (resumed_in quantum_clock))))
           (mkContext 0 running quantum_clock 0 [] []) eq_refl).
Defined.



(** X7: a chord is its keys played one after the other: playChord on the
    keys of two lists put together does what playChord on the first list
    followed by playChord on the second does, on every engine, whether
    the calls return or throw. *)
Theorem playChord_app keys1 keys2 seconds m :
  AudioPlayer.playChord (keys1 ++ keys2) seconds m =
  (AudioPlayer.playChord keys1 seconds ;;; AudioPlayer.playChord keys2 seconds) m.
Proof.
  unfold bind. destruct (audioContext (self m)) as [c |] eqn:Hc.
  - rewrite (playChord_lifts (keys1 ++ keys2) seconds m c Hc).
    rewrite (playChord_lifts keys1 seconds m c Hc).
    unfold playChord_in. rewrite forEach_app. unfold bind.
    destruct (forEach _ keys1 c) as [[] c1 | e c1]; cbn [lift]; [| done].
    rewrite (playChord_lifts keys2 seconds (set_audioContext c1 m) c1 eq_refl).
    by rewrite lift_set.
  - rewrite !playChord_uninitialized by done. done.
Qed.

(** X8: when playChord returns on a clock that shows the one instant [t]
    at every look of the call, the chord is in unison: every tone starts
    at [t] and stops at [t + seconds], and its volume is set to 0.3 at
    [t] and fades to 0.01 at [t + seconds]. *)
Theorem playChord_envelope_on_steady_clock m c keys seconds t m' :
  audioContext (self m) = Some c →
  (∀ k, (reads c ≤ k < reads c + 4 * length keys)%nat → timeline c k = t) →
  AudioPlayer.playChord keys seconds m = Normal tt m' →
  chord_unison_at m keys seconds t ∧
  ∃ c', audioContext (self m') = Some c' ∧
        ∀ i o g, tones_since c c' !! i = Some o → gains_since c c' !! i = Some g →
          gain g = [ SetValueAtTime 0.3 t;
                     ExponentialRampToValueAtTime 0.01 (t + seconds) ] ∧
          startTime o = Some t ∧ stopTime o = Some (t + seconds).
Proof.
  intros Hc Hclock Hplay.
  destruct (playChord_returned _ _ _ _ _ Hc Hplay) as [_ ->].
  assert (∀ i o g, tones_since c (playChord_on keys seconds c) !! i = Some o →
                   gains_since c (playChord_on keys seconds c) !! i = Some g →
            gain g = [ SetValueAtTime 0.3 t;
                       ExponentialRampToValueAtTime 0.01 (t + seconds) ] ∧
            startTime o = Some t ∧ stopTime o = Some (t + seconds)) as Hall.
  { rewrite tones_since_chord, gains_since_chord.
    intros i o g Ho Hg. rewrite list_lookup_imap in Ho.
    rewrite list_lookup_imap in Hg.
    destruct (keys !! i) as [key |] eqn:Hk; [| done].
    apply lookup_lt_Some in Hk.
    injection Ho as <-. injection Hg as <-.
    unfold envelope, tone. cbn [gain startTime stopTime].
    rewrite !Hclock by lia. done. }
  split.
  - exists (set_audioContext (playChord_on keys seconds c) m), c,
      (playChord_on keys seconds c).
    do 3 (split; [done |]).
    assert (length (tones_since c (playChord_on keys seconds c)) = length keys)
      as Hlen by (by rewrite tones_since_chord, length_imap).
    split; [exact Hlen |].
    apply Forall_lookup_2. intros i o Ho.
    destruct (lookup_lt_is_Some_2 (gains_since c (playChord_on keys seconds c)) i)
      as [g Hg].
    { rewrite gains_since_chord, length_imap, <- Hlen. by eapply lookup_lt_Some. }
    by destruct (Hall i o g Ho Hg) as (_ & ? & ?).
  - by exists (playChord_on keys seconds c).
Qed.

Lemma playChord_envelope_on_steady_clock_witness :
  let m := resumed_in steady_clock in
  let c := mkContext 0 running steady_clock 0 [] [] in
  let keys := ["c/4"; "e/4"]%string in
  (audioContext (self m) = Some c ∧
   (∀ k, (reads c ≤ k < reads c + 4 * length keys)%nat → timeline c k = 1) ∧
   AudioPlayer.playChord keys 0.5 m =
     Normal tt (final (AudioPlayer.playChord keys 0.5 m))) ∧
  chord_unison_at m keys 0.5 1 ∧
  ∃ c', audioContext (self (final (AudioPlayer.playChord keys 0.5 m))) = Some c' ∧
        ∀ i o g, tones_since c c' !! i = Some o → gains_since c c' !! i = Some g →
          gain g = [ SetValueAtTime 0.3 1;
                     ExponentialRampToValueAtTime 0.01 (1 + 0.5) ] ∧
          startTime o = Some 1 ∧ stopTime o = Some (1 + 0.5).
Proof.
  cbv zeta.
  set (c := mkContext 0 running steady_clock 0 [] []).
  set (keys := ["c/4"; "e/4"]%string).
  assert (H1 : audioContext (self (resumed_in steady_clock)) = Some c)
    by reflexivity.
  assert (H2 : ∀ k, (reads c ≤ k < reads c + 4 * length keys)%nat →
                    timeline c k = 1)
    by (intros k _; reflexivity).
  assert (H3 : AudioPlayer.playChord keys 0.5 (resumed_in steady_clock) =
               Normal tt (final (AudioPlayer.playChord keys 0.5
                                   (resumed_in steady_clock))))
    by (by vm_compute).
  split; [split; [exact H1 | split; [exact H2 | exact H3]] |].
  exact (playChord_envelope_on_steady_clock _ _ _ 0.5 1 _ H1 H2 H3).
Defined.

Lemma quantum_clock_monotone : monotone quantum_clock.
Proof.
  intros i j Hij. unfold quantum_clock.
  destruct (Nat.ltb_spec i 4), (Nat.ltb_spec j 4); try reflexivity. lia.
Qed.

(** X9: when playChord returns on a clock that never runs backwards,
    whatever the clock does between two looks, the tones of the chord
    start in the order of the keys, the volume of each tone is set no
    later than the tone starts, and every time handed to the library is
    finite and not negative. *)
Theorem playChord_on_monotone_clock m c keys seconds m' :
  audioContext (self m) = Some c →
  monotone (timeline c) →
  AudioPlayer.playChord keys seconds m = Normal tt m' →
  ∃ c', audioContext (self m') = Some c' ∧
        (∀ i j o o', (i ≤ j)%nat →
           tones_since c c' !! i = Some o → tones_since c c' !! j = Some o' →
           ∃ s s', startTime o = Some s ∧ startTime o' = Some s' ∧
                   (s <=? s') = true) ∧
        ∀ i o g, tones_since c c' !! i = Some o → gains_since c c' !! i = Some g →
          ∃ set fade s e,
            gain g = [ SetValueAtTime 0.3 set;
                       ExponentialRampToValueAtTime 0.01 fade ] ∧
            startTime o = Some s ∧ stopTime o = Some e ∧
            (set <=? s) = true ∧
            valid_time set = true ∧ valid_time fade = true ∧
            valid_time s = true ∧ valid_time e = true.
Proof.
  intros Hc Hmono Hplay.
  destruct (playChord_returned _ _ _ _ _ Hc Hplay) as [Hp ->].
  exists (playChord_on keys seconds c). split; [done |].
  rewrite tones_since_chord, gains_since_chord. split.
  - intros i j o o' Hij Ho Ho'. rewrite list_lookup_imap in Ho.
    rewrite list_lookup_imap in Ho'.
    destruct (keys !! i) as [ki |]; [| done].
    destruct (keys !! j) as [kj |]; [| done].
    injection Ho as <-. injection Ho' as <-.
    eexists _, _. do 2 (split; [done |]). apply Hmono. lia.
  - intros i o g Ho Hg. rewrite list_lookup_imap in Ho.
    rewrite list_lookup_imap in Hg.
    destruct (keys !! i) as [key |] eqn:Hk; [| done].
    injection Ho as <-. injection Hg as <-.
    destruct (playable_chord_lookup _ _ _ _ _ Hp Hk) as (_ & V0 & V1 & V2 & V3).
    eexists _, _, _, _. do 3 (split; [done |]).
    split; [apply Hmono; lia |]. done.
Qed.

Lemma playChord_on_monotone_clock_witness :
  let m := resumed_in quantum_clock in
  let c := mkContext 0 running quantum_clock 0 [] [] in
  let keys := ["c/4"; "e/4"; "g/4"]%string in
  (audioContext (self m) = Some c ∧ monotone (timeline c) ∧
   AudioPlayer.playChord keys 1 m =
     Normal tt (final (AudioPlayer.playChord keys 1 m))) ∧
  ∃ c', audioContext (self (final (AudioPlayer.playChord keys 1 m))) = Some c' ∧
        (∀ i j o o', (i ≤ j)%nat →
           tones_since c c' !! i = Some o → tones_since c c' !! j = Some o' →
           ∃ s s', startTime o = Some s ∧ startTime o' = Some s' ∧
                   (s <=? s') = true) ∧
        ∀ i o g, tones_since c c' !! i = Some o → gains_since c c' !! i = Some g →
          ∃ set fade s e,
            gain g = [ SetValueAtTime 0.3 set;
                       ExponentialRampToValueAtTime 0.01 fade ] ∧
            startTime o = Some s ∧ stopTime o = Some e ∧
            (set <=? s) = true ∧
            valid_time set = true ∧ valid_time fade = true ∧
            valid_time s = true ∧ valid_time e = true.
Proof.
  cbv zeta.
  assert (H : AudioPlayer.playChord ["c/4"; "e/4"; "g/4"]%string 1
                (resumed_in quantum_clock) =
              Normal tt (final (AudioPlayer.playChord ["c/4"; "e/4"; "g/4"]%string 1
                                  (resumed_in quantum_clock))))
    by (by vm_compute).
  split; [split; [reflexivity | split; [exact quantum_clock_monotone | exact H]] |].
  exact (playChord_on_monotone_clock (resumed_in quantum_clock)
           (mkContext 0 running quantum_clock 0 [] [])
           ["c/4"; "e/4"; "g/4"]%string 1 _ eq_refl quantum_clock_monotone H).
Defined.

(** ** getFrequency *)

(** X10: for every name that is not a property name of Object.prototype,
    getFrequency returns a number: the entry of the table when the name is
    in it, 440 when it is not. *)
Theorem getFrequency_outside_prototype note :
  note ∉ JS.Object_prototype →
  AudioPlayer.getFrequency note =
    JS.Number (default 440 (AudioPlayer.noteMap !! note)).
Proof.
  intros Hp. destruct (AudioPlayer.noteMap !! note) as [f |] eqn:Hn.
  - by apply getFrequency_hit.
  - by apply getFrequency_miss.
Qed.

Lemma getFrequency_outside_prototype_witness :
  ("h/4"%string ∉ JS.Object_prototype) ∧
  AudioPlayer.getFrequency "h/4" =
    JS.Number (default 440 (AudioPlayer.noteMap !! "h/4"%string)).
Proof.
  assert (H : "h/4"%string ∉ JS.Object_prototype)
    by (apply (bool_decide_unpack _); by vm_compute).
  split; [exact H |].
  exact (getFrequency_outside_prototype "h/4" H).
Defined.

(** X11: whatever the name, getFrequency never returns undefined and never
    returns 0: its result is truthy. *)
Theorem getFrequency_truthy note :
  JS.truthy (AudioPlayer.getFrequency note) = true.
Proof.
  destruct (AudioPlayer.noteMap !! note) as [f |] eqn:Hn.
  - rewrite (getFrequency_hit _ _ Hn). apply (noteMap_entry _ _ Hn).
  - destruct (decide (note ∈ JS.Object_prototype)) as [Hp | Hp].
    + by rewrite getFrequency_inherited.
    + by rewrite getFrequency_miss.
Qed.

(** ** Where playChord throws *)

(** X21: a key that is an inherited name stops the chord.  On an
    initialised engine playChord throws a TypeError at such a key, when it
    assigns the inherited object to the frequency: the oscillator and the
    gain node of the key are in the context, connected, the oscillator at
    its default frequency and never started; the clock has not been looked
    at and the keys behind are not played. *)
Theorem playChord_inherited_key_throws m c key rest seconds :
  audioContext (self m) = Some c →
  key ∈ JS.Object_prototype →
  ∃ c', AudioPlayer.playChord (key :: rest) seconds m =
          Throw JS.TypeError (set_audioContext c' m) ∧
        contextId c' = contextId c ∧ state c' = state c ∧
        timeline c' = timeline c ∧ reads c' = reads c ∧
        oscillators c' =
          oscillators c ++
          [mkOscillator 440 sine (Some (toGain (length (gainNodes c)))) None None] ∧
        gainNodes c' = gainNodes c ++ [mkGain [] (Some toDestination)].
Proof.
  intros Hc Hkey.
  rewrite (playChord_lifts _ _ m c Hc), playChord_in_cons.
  rewrite (getFrequency_inherited key) by auto using inherited_not_in_table.
  unfold playNote_in. rewrite createOscillator_createGain. unfold bind.
  rewrite working_onOscillator. cbn [osc_connect].
  rewrite working_onGain. cbn [gain_connect].
  rewrite working_onOscillator. unfold set_frequency. cbn [JS.ToNumber].
  change (JS.to_float nan) with (Some JS.TypeError). cbn [lift].
  eexists. split; [reflexivity |]. done.
Qed.

Lemma playChord_inherited_key_throws_witness :
  let m := resumed_in quantum_clock in
  let c := mkContext 0 running quantum_clock 0 [] [] in
  (audioContext (self m) = Some c ∧ "constructor"%string ∈ JS.Object_prototype) ∧
  ∃ c', AudioPlayer.playChord ["constructor"; "c/4"]%string 1 m =
          Throw JS.TypeError (set_audioContext c' m) ∧
        contextId c' = contextId c ∧ state c' = state c ∧
        timeline c' = timeline c ∧ reads c' = reads c ∧
        oscillators c' =
          oscillators c ++
          [mkOscillator 440 sine (Some (toGain (length (gainNodes c)))) None None] ∧
        gainNodes c' = gainNodes c ++ [mkGain [] (Some toDestination)].
Proof.
  cbv zeta.
  assert (H : "constructor"%string ∈ JS.Object_prototype)
    by (apply (bool_decide_unpack _); by vm_compute).
  split; [split; [reflexivity | exact H] |].
  exact (playChord_inherited_key_throws (resumed_in quantum_clock)
           (mkContext 0 running quantum_clock 0 [] []) "constructor"
           ["c/4"%string] 1 eq_refl H).
Defined.

(** X22: a duration that takes the end of the fade before time zero stops
    the chord.  On an initialised engine whose clock shows a valid time,
    playChord then throws a RangeError at the first key, when it schedules
    the fade: the volume of the tone is set, its fade is not, and its
    oscillator is never started. *)
Theorem playChord_negative_end_throws m c key rest seconds :
  audioContext (self m) = Some c →
  key ∉ JS.Object_prototype →
  valid_time (timeline c (reads c)) = true →
  is_finite (timeline c (1 + reads c) + seconds) = true →
  (timeline c (1 + reads c) + seconds <? 0) = true →
  ∃ c' o g,
    AudioPlayer.playChord (key :: rest) seconds m =
      Throw JS.RangeError (set_audioContext c' m) ∧
    reads c' = (2 + reads c)%nat ∧
    oscillators c' = oscillators c ++ [o] ∧
    gainNodes c' = gainNodes c ++ [g] ∧
    startTime o = None ∧ stopTime o = None ∧
    gain g = [SetValueAtTime 0.3 (timeline c (reads c))].
Proof.
  intros Hc Hkey Hnow Hfin Hneg.
  rewrite (playChord_lifts _ _ m c Hc), playChord_in_cons.
  unfold playNote_in. rewrite createOscillator_createGain. unfold bind.
  rewrite working_onOscillator. cbn [osc_connect].
  rewrite working_onGain. cbn [gain_connect].
  rewrite working_onOscillator. unfold set_frequency.
  rewrite (proj2 (getFrequency_playable key) Hkey).
  rewrite working_onOscillator. cbn [set_type].
  rewrite working_currentTime, working_onGain. unfold automate.
  rewrite (proj2 (refused_setValue (timeline c (0 + reads c))) Hnow).
  rewrite working_currentTime, working_onGain. unfold automate.
  assert (refused (ExponentialRampToValueAtTime 0.01
                     (timeline c (1 + reads c) + seconds)) = Some JS.RangeError)
    as ->.
  { unfold refused, JS.to_double, time. cbn [Nat.add] in *.
    by rewrite Hfin, Hneg. }
  cbn [lift]. eexists _, _, _. split; [reflexivity |]. done.
Qed.

Lemma playChord_negative_end_throws_witness :
  let m := resumed_in steady_clock in
  let c := mkContext 0 running steady_clock 0 [] [] in
  (audioContext (self m) = Some c ∧ ("c/4"%string ∉ JS.Object_prototype) ∧
   valid_time (timeline c (reads c)) = true ∧
   is_finite (timeline c (1 + reads c) + -2) = true ∧
   (timeline c (1 + reads c) + -2 <? 0) = true) ∧
  ∃ c' o g,
    AudioPlayer.playChord ["c/4"; "e/4"]%string (-2) m =
      Throw JS.RangeError (set_audioContext c' m) ∧
    reads c' = (2 + reads c)%nat ∧
    oscillators c' = oscillators c ++ [o] ∧
    gainNodes c' = gainNodes c ++ [g] ∧
    startTime o = None ∧ stopTime o = None ∧
    gain g = [SetValueAtTime 0.3 (timeline c (reads c))].
Proof.
  cbv zeta.
  assert (H : "c/4"%string ∉ JS.Object_prototype)
    by (apply (bool_decide_unpack _); by vm_compute).
  split; [repeat split; (exact H || reflexivity) |].
  exact (playChord_negative_end_throws (resumed_in steady_clock)
           (mkContext 0 running steady_clock 0 [] []) "c/4" ["e/4"%string] (-2)
           eq_refl H eq_refl eq_refl eq_refl).
Defined.



(** ** playChord as the article prints it *)

Section ArticleChords.

Lemma playKey_lifts key seconds :
  lifts (Article.playKey key seconds) (Article.playKey_in key seconds).
Proof.
  unfold Article.playKey, Article.playKey_in.
  repeat (apply lifts_bind; [apply lifts_onContext | intros ?]).
  apply lifts_onContext.
Qed.

Lemma article_playChord_lifts keys seconds :
  lifts (Article.playChord keys seconds)
        (forEach (fun key => Article.playKey_in key seconds) keys).
Proof.
  intros m c Hc. unfold Article.playChord. rewrite guarded, Hc.
  apply lifts_forEach; [| done]. intros key. apply playKey_lifts.
Qed.

(** The outcome of the calls for one key. *)
Lemma playKey_in_outcome key d c :
  match Article.playKey_refused key d c with
  | None => Article.playKey_in key d c = Normal tt (Article.key_on key d c)
  | Some e => ∃ c', Article.playKey_in key d c = Throw e c'
  end.
Proof.
  unfold Article.playKey_refused, Article.playKey_in.
  rewrite createOscillator_createGain. unfold bind.
  rewrite working_onOscillator. cbn [osc_connect].
  rewrite working_onGain. cbn [gain_connect].
  rewrite working_onOscillator. unfold set_frequency.
  destruct (JS.to_float _) as [e |]; [by eexists |].
  cbn [JS.and_then]. rewrite working_onOscillator. cbn [set_type].
  rewrite working_currentTime, working_onGain. unfold automate.
  cbn [Nat.add].
  destruct (refused (SetValueAtTime _ _)) as [e |]; [by eexists |].
  cbn [JS.and_then]. rewrite working_onGain. unfold automate.
  destruct (refused (ExponentialRampToValueAtTime _ _)) as [e |]; [by eexists |].
  cbn [JS.and_then]. rewrite working_onOscillator. unfold start.
  destruct (JS.to_double (timeline c (reads c))) as [e |]; [by eexists |].
  cbn [JS.and_then startTime].
  destruct (time (timeline c (reads c))) as [e |]; [by eexists |].
  cbn [JS.and_then]. rewrite working_onOscillator. unfold stop.
  destruct (JS.to_double _) as [e |]; [by eexists |].
  cbn [JS.and_then startTime].
  destruct (time _) as [e |]; [by eexists |].
  reflexivity.
Qed.

Lemma playKey_refused_iff key d c :
  Article.playKey_refused key d c = None ↔
  JS.to_float (JS.ToNumber (AudioPlayer.getFrequency key)) = None ∧
  valid_time (timeline c (reads c)) = true ∧
  valid_time (timeline c (reads c) + d) = true.
Proof.
  unfold Article.playKey_refused. cbv zeta.
  rewrite !and_then_None, refused_setValue, refused_ramp.
  rewrite <- !valid_time_checks, !and_then_None. tauto.
Qed.

Lemma article_playChord_in_inv keys d : ∀ c c',
  forEach (fun key => Article.playKey_in key d) keys c = Normal tt c' →
  c' = Article.playChord_on keys d c.
Proof.
  induction keys as [| key keys IH]; intros c c' H.
  - by injection H as <-.
  - cbn [forEach] in H. unfold bind in H.
    pose proof (playKey_in_outcome key d c) as Ho.
    destruct (Article.playKey_refused key d c) as [e |].
    + destruct Ho as [c1 Ho]. rewrite Ho in H. discriminate H.
    + rewrite Ho in H. by apply IH in H.
Qed.

Lemma article_playChord_in_normal keys d : ∀ c,
  Forall (fun key =>
            JS.to_float (JS.ToNumber (AudioPlayer.getFrequency key)) = None) keys →
  (∀ k, (reads c ≤ k < length keys + reads c)%nat →
        valid_time (timeline c k) = true ∧ valid_time (timeline c k + d) = true) →
  forEach (fun key => Article.playKey_in key d) keys c =
    Normal tt (Article.playChord_on keys d c).
Proof.
  induction keys as [| key keys IH]; intros c Hkeys Hclock; [done |].
  apply Forall_cons in Hkeys as [Hkey Hkeys]. cbn [length] in Hclock.
  cbn [forEach]. unfold bind.
  pose proof (playKey_in_outcome key d c) as Ho.
  rewrite (proj2 (playKey_refused_iff key d c)) in Ho.
  - rewrite Ho. apply IH; [done |]. cbn [Article.key_on timeline reads].
    intros k Hk. apply Hclock. lia.
  - split; [done |]. apply Hclock. lia.
Qed.

Lemma article_tone_shift c key seconds i k :
  Article.tone (Article.key_on key seconds c) seconds i k =
  Article.tone c seconds (S i) k.
Proof.
  unfold Article.tone, Article.key_on. cbn [gainNodes reads timeline].
  rewrite length_app. cbn [length].
  replace (length (gainNodes c) + 1 + i)%nat
    with (length (gainNodes c) + S i)%nat by lia.
  replace (i + (1 + reads c))%nat with (S i + reads c)%nat by lia.
  done.
Qed.

Lemma article_envelope_shift c key seconds i :
  Article.envelope (Article.key_on key seconds c) seconds i =
  Article.envelope c seconds (S i).
Proof.
  unfold Article.envelope, Article.key_on. cbn [reads timeline].
  replace (i + (1 + reads c))%nat with (S i + reads c)%nat by lia.
  done.
Qed.

Lemma article_playChord_on_fields keys seconds : ∀ c,
  let c' := Article.playChord_on keys seconds c in
  reads c' = (length keys + reads c)%nat ∧
  oscillators c' = oscillators c ++ imap (Article.tone c seconds) keys ∧
  gainNodes c' =
    gainNodes c ++ imap (fun i _ => Article.envelope c seconds i) keys.
Proof.
  induction keys as [| key keys IH]; intros c.
  - cbn. by rewrite !app_nil_r.
  - cbv zeta. change (Article.playChord_on (key :: keys) seconds c)
      with (Article.playChord_on keys seconds (Article.key_on key seconds c)).
    destruct (IH (Article.key_on key seconds c)) as (Hr & Ho & Hg).
    rewrite Hr, Ho, Hg.
    cbn [Article.key_on reads oscillators gainNodes length].
    split; [lia |].
    rewrite <- !app_assoc, !imap_cons. cbn [app].
    split; f_equal; apply (f_equal2 cons).
    + unfold Article.tone. by rewrite Nat.add_0_r.
    + apply imap_ext. intros i k _. apply article_tone_shift.
    + done.
    + apply imap_ext. intros i k _. apply article_envelope_shift.
Qed.

End ArticleChords.

(** X12: playChord as the article prints it looks at the clock once for
    each key.  When it returns, whatever the clock does, the tone of a key
    starts at the instant seen for that key and stops exactly [seconds]
    after it, and its volume is set at that start and fades out at that
    stop. *)
Theorem article_playChord_one_look_per_key m c keys seconds m' :
  audioContext (self m) = Some c →
  Article.playChord keys seconds m = Normal tt m' →
  ∃ c', m' = set_audioContext c' m ∧
        reads c' = (length keys + reads c)%nat ∧
        length (tones_since c c') = length keys ∧
        ∀ i o g, tones_since c c' !! i = Some o → gains_since c c' !! i = Some g →
          let now := timeline c (i + reads c) in
          startTime o = Some now ∧ stopTime o = Some (now + seconds) ∧
          gain g = [ SetValueAtTime 0.3 now;
                     ExponentialRampToValueAtTime 0.01 (now + seconds) ].
Proof.
  intros Hc Hplay. rewrite (article_playChord_lifts keys seconds m c Hc) in Hplay.
  destruct (forEach _ keys c) as [[] c' | e c'] eqn:E; [| discriminate].
  injection Hplay as <-. apply article_playChord_in_inv in E as ->.
  exists (Article.playChord_on keys seconds c). split; [done |].
  destruct (article_playChord_on_fields keys seconds c) as (Hr & Ho & Hg).
  split; [done |]. unfold tones_since, gains_since.
  rewrite Ho, Hg, !drop_app_length, length_imap. split; [done |].
  intros i o g Hi Hi'. rewrite list_lookup_imap in Hi.
  rewrite list_lookup_imap in Hi'.
  destruct (keys !! i) as [key |]; [| done].
  injection Hi as <-. injection Hi' as <-. done.
Qed.

Lemma article_playChord_one_look_per_key_witness :
  let m := resumed_in quantum_clock in
  let c := mkContext 0 running quantum_clock 0 [] [] in
  let keys := ["c/4"; "e/4"; "g/4"; "b/4"; "d/5"]%string in
  (audioContext (self m) = Some c ∧
   Article.playChord keys 1 m = Normal tt (final (Article.playChord keys 1 m))) ∧
  ∃ c', final (Article.playChord keys 1 m) = set_audioContext c' m ∧
        reads c' = (length keys + reads c)%nat ∧
        length (tones_since c c') = length keys ∧
        ∀ i o g, tones_since c c' !! i = Some o → gains_since c c' !! i = Some g →
          let now := timeline c (i + reads c) in
          startTime o = Some now ∧ stopTime o = Some (now + 1) ∧
          gain g = [ SetValueAtTime 0.3 now;
                     ExponentialRampToValueAtTime 0.01 (now + 1) ].
Proof.
  cbv zeta.
  assert (H : Article.playChord ["c/4"; "e/4"; "g/4"; "b/4"; "d/5"]%string 1
                (resumed_in quantum_clock) =
              Normal tt (final (Article.playChord
                                  ["c/4"; "e/4"; "g/4"; "b/4"; "d/5"]%string 1
                                  (resumed_in quantum_clock))))
    by (by vm_compute).
  split; [split; [reflexivity | exact H] |].
  exact (article_playChord_one_look_per_key (resumed_in quantum_clock)
           (mkContext 0 running quantum_clock 0 [] [])
           ["c/4"; "e/4"; "g/4"; "b/4"; "d/5"]%string 1 _ eq_refl H).
Defined.

(** X13: the two versions of playChord agree where the clock stands
    still.  On an engine without a context both return and change nothing;
    on an initialised engine whose clock shows one instant at every look of
    the call, when the playChord of the class returns, so does the
    playChord of the article, and the two leave the same oscillators and
    the same gain nodes in the context. *)
Theorem article_playChord_agrees_on_steady_clock m keys seconds :
  (audioContext (self m) = None →
   Article.playChord keys seconds m = AudioPlayer.playChord keys seconds m) ∧
  ∀ c t m1, audioContext (self m) = Some c →
    (∀ k, (reads c ≤ k < reads c + 4 * length keys)%nat → timeline c k = t) →
    AudioPlayer.playChord keys seconds m = Normal tt m1 →
    ∃ c1 c2,
      m1 = set_audioContext c1 m ∧
      Article.playChord keys seconds m = Normal tt (set_audioContext c2 m) ∧
      oscillators c1 = oscillators c2 ∧ gainNodes c1 = gainNodes c2.
Proof.
  split.
  - intros Hc. rewrite playChord_uninitialized by done.
    unfold Article.playChord. by rewrite guarded, Hc.
  - intros c t m1 Hc Hclock Hplay.
    destruct (playChord_returned _ _ _ _ _ Hc Hplay) as [Hp ->].
    exists (playChord_on keys seconds c), (Article.playChord_on keys seconds c).
    split; [done |]. split.
    + rewrite (article_playChord_lifts keys seconds m c Hc).
      rewrite article_playChord_in_normal; [done | |].
      * apply Forall_lookup_2. intros i key Hk.
        by destruct (playable_chord_lookup _ _ _ _ _ Hp Hk) as [? _].
      * intros k Hk. destruct keys as [| key0 keys0]; [cbn in Hk; lia |].
        destruct (playable_chord_lookup _ _ c 0 key0 Hp eq_refl)
          as (_ & V0 & V1 & _).
        cbn [length] in Hclock. rewrite !Hclock in V0, V1 by lia.
        cbn [length] in Hk. rewrite Hclock by lia. done.
    + destruct (playChord_on_fields keys seconds c) as (_ & _ & _ & _ & -> & ->).
      destruct (article_playChord_on_fields keys seconds c) as (_ & -> & ->).
      split; f_equal; apply imap_ext; intros i key Hk;
        apply lookup_lt_Some in Hk;
        unfold tone, Article.tone, envelope, Article.envelope;
        rewrite !Hclock by lia; done.
Qed.

Lemma article_playChord_agrees_on_steady_clock_witness :
  let m := resumed_in steady_clock in
  let c := mkContext 0 running steady_clock 0 [] [] in
  let keys := ["c/4"; "e/4"]%string in
  (audioContext (self m) = Some c ∧
   (∀ k, (reads c ≤ k < reads c + 4 * length keys)%nat → timeline c k = 1) ∧
   AudioPlayer.playChord keys 1 m =
     Normal tt (final (AudioPlayer.playChord keys 1 m))) ∧
  ∃ c1 c2,
    final (AudioPlayer.playChord keys 1 m) = set_audioContext c1 m ∧
    Article.playChord keys 1 m = Normal tt (set_audioContext c2 m) ∧
    oscillators c1 = oscillators c2 ∧ gainNodes c1 = gainNodes c2.
Proof.
  cbv zeta.
  set (c := mkContext 0 running steady_clock 0 [] []).
  set (keys := ["c/4"; "e/4"]%string).
  assert (H1 : audioContext (self (resumed_in steady_clock)) = Some c)
    by reflexivity.
  assert (H2 : ∀ k, (reads c ≤ k < reads c + 4 * length keys)%nat →
                    timeline c k = 1)
    by (intros k _; reflexivity).
  assert (H3 : AudioPlayer.playChord keys 1 (resumed_in steady_clock) =
               Normal tt (final (AudioPlayer.playChord keys 1
                                   (resumed_in steady_clock))))
    by (by vm_compute).
  split; [split; [exact H1 | split; [exact H2 | exact H3]] |].
  exact (proj2 (article_playChord_agrees_on_steady_clock
                  (resumed_in steady_clock) keys 1) c 1 _ H1 H2 H3).
Defined.

(** ** More on the scheduler's fold *)

(** X14: look-ahead.  Whatever the timer primitive scheduleAction does, and
    whatever state it keeps, a run calls it once for each note, in the
    order of the notes, and once more for completion.  The call for note i
    hands over the closure that invokes onNoteStart(i) and then playChord
    with the keys of the note and its duration in seconds, and the offset
    of the note in milliseconds; the last call hands over onComplete and
    the offset behind the last note.  The run makes no other call. *)
Theorem playAllNotes_any_timer {Effect Timers} BEAT_DURATION
    (scheduleAction : Action Effect → number → Timers → Timers)
    notes audioPlayer (onNoteStart : nat → Effect) (onComplete : Effect) (s : Timers) :
  playAllNotes BEAT_DURATION scheduleAction notes audioPlayer onNoteStart onComplete s =
    fold_left (fun s call => scheduleAction call.1 call.2 s)
      (imap (fun i note =>
               ([ Invoke (onNoteStart i);
                  PlayChord audioPlayer (keys note)
                    (duration note * BEAT_DURATION) ],
                offset BEAT_DURATION notes i * 1000)) notes ++
       [([Invoke onComplete], offset BEAT_DURATION notes (length notes) * 1000)])
      s.
Proof.
  rewrite playAllNotes_calls, calls_from_imap, offset_length. done.
Qed.

(** X18: the action of a note does not depend on what follows it.  Two
    scores that agree up to and including position i get the same action
    with the same delay at position i, whatever comes after and whatever
    the completion callbacks are. *)
Theorem armed_action_ignores_later_notes {Effect} BEAT_DURATION notes notes'
    audioPlayer (onNoteStart : nat → Effect) (onComplete onComplete' : Effect) i :
  (i < length notes)%nat →
  take (S i) notes = take (S i) notes' →
  armed_by BEAT_DURATION notes audioPlayer onNoteStart onComplete !! i =
  armed_by BEAT_DURATION notes' audioPlayer onNoteStart onComplete' !! i.
Proof.
  intros Hi Htake.
  destruct (lookup_lt_is_Some_2 notes i) as [note Hn]; [done |].
  assert (notes' !! i = Some note) as Hn'.
  { rewrite <- (lookup_take_lt notes' (S i)) by lia.
    rewrite <- Htake. by rewrite lookup_take_lt by lia. }
  rewrite (armed_by_lookup_note _ _ _ _ _ _ note) by done.
  rewrite (armed_by_lookup_note _ _ _ _ _ _ note) by done.
  unfold offset.
  replace (take i notes) with (take i (take (S i) notes))
    by (rewrite take_take; f_equal; lia).
  rewrite Htake, take_take. by replace (i `min` S i)%nat with i by lia.
Qed.

Lemma armed_action_ignores_later_notes_witness :
  let notes := createNoteData in
  let notes' := take 2 createNoteData ++ [mkNote ["g/4"; "b/4"]%string 1] in
  ((1 < length notes)%nat ∧ take 2 notes = take 2 notes') ∧
  armed_by 1 notes thePlayer (fun i : nat => i) 4%nat !! 1%nat =
  armed_by 1 notes' thePlayer (fun i : nat => i) 5%nat !! 1%nat.
Proof.
  cbv zeta.
  assert (H1 : (1 < length createNoteData)%nat) by (cbn; lia).
  assert (H2 : take 2 createNoteData =
               take 2 (take 2 createNoteData ++ [mkNote ["g/4"; "b/4"]%string 1]))
    by reflexivity.
  split; [split; [exact H1 | exact H2] |].
  exact (armed_action_ignores_later_notes 1 createNoteData _ thePlayer
           (fun i : nat => i) 4%nat 5%nat 1%nat H1 H2).
Defined.

(** X24: positive durations do not keep the actions of a run apart.  A
    note of one beat followed by a note of 1e-17 beats, at one second per
    beat: the sum 1 + 1e-17 rounds to 1, so the action of the second note
    and the completion action are both armed at 1000 ms. *)
Theorem positive_durations_can_share_an_offset :
  let notes := [mkNote ["c/4"%string] 1; mkNote ["d/4"%string] 1e-17] in
  Forall (fun note => (0 <? duration note) = true) notes ∧
  (armed_by 1 notes thePlayer (fun i : nat => i) 2%nat).*2 = [0; 1000; 1000].
Proof. cbv zeta. split; [by repeat constructor | by vm_compute]. Qed.

(** ** A run, fired *)

Section Fired.

Variable BEAT_DURATION : number.
Context {Effect : Type}.
Variable onNoteStart : nat → Effect.

Local Abbreviation B := BEAT_DURATION.



End Fired.


Section Score.

Variable BEAT_DURATION : number.

Lemma play_score_uninitialized notes : ∀ m,
  audioContext (self m) = None → play_score BEAT_DURATION notes m = m.
Proof.
  induction notes as [| note rest IH]; intros m Hc; [done |].
  cbn [play_score fold_left]. rewrite playChord_uninitialized by done.
  by apply IH.
Qed.

Lemma play_score_initialized notes : ∀ m c,
  audioContext (self m) = Some c →
  ∃ c', play_score BEAT_DURATION notes m = set_audioContext c' m ∧
        more_tones (sum_list (length ∘ keys <$> notes)) c c'.
Proof.
  induction notes as [| note rest IH]; intros m c Hc.
  - exists c. cbn. rewrite set_audioContext_id by done.
    split; [done | apply more_tones_refl].
  - cbn [play_score fold_left]. rewrite (playChord_final m c) by done.
    set (c1 := final (playChord_in (keys note) (duration note * BEAT_DURATION) c)).
    destruct (IH (set_audioContext c1 m) c1 eq_refl) as (c' & Hrun & Hmore).
    exists c'. split; [exact Hrun |].
    cbn [fmap list_fmap sum_list sum_list_with compose].
    eapply more_tones_trans; [apply playChord_in_frame | exact Hmore].
Qed.

End Score.

(** X20: the chords of a score played one after the other, each call run
    to its completion whether it returns or throws.  On an engine without
    a context nothing happens at all; on an initialised engine the nodes
    the context had are still there, unchanged, before the new ones, the
    score has created as many gain nodes as oscillators, at most one of
    each for every key of every note, and nothing else of the machine
    changes but the looks at the clock. *)
Theorem score_creates_tones_behind BEAT_DURATION notes m :
  (audioContext (self m) = None → play_score BEAT_DURATION notes m = m) ∧
  ∀ c, audioContext (self m) = Some c →
    ∃ c', play_score BEAT_DURATION notes m = set_audioContext c' m ∧
          contextId c' = contextId c ∧ state c' = state c ∧
          timeline c' = timeline c ∧
          oscillators c `prefix_of` oscillators c' ∧
          gainNodes c `prefix_of` gainNodes c' ∧
          length (tones_since c c') = length (gains_since c c') ∧
          (length (tones_since c c') ≤ sum_list (length ∘ keys <$> notes))%nat.
Proof.
  split; [apply play_score_uninitialized |].
  intros c Hc.
  destruct (play_score_initialized BEAT_DURATION notes m c Hc)
    as (c' & Hrun & Hid & Hst & Htl & _ & os & gs & Ho & Hg & Hlen & Hn).
  exists c'. split; [exact Hrun |].
  unfold tones_since, gains_since. rewrite Ho, Hg, !drop_app_length.
  do 3 (split; [done |]). do 2 (split; [by apply prefix_app_r |]). done.
Qed.

Lemma score_creates_tones_behind_witness :
  let m := resumed_in quantum_clock in
  let c := mkContext 0 running quantum_clock 0 [] [] in
  audioContext (self m) = Some c ∧
  ∃ c', play_score 1 createNoteData m = set_audioContext c' m ∧
        contextId c' = contextId c ∧ state c' = state c ∧
        timeline c' = timeline c ∧
        oscillators c `prefix_of` oscillators c' ∧
        gainNodes c `prefix_of` gainNodes c' ∧
        length (tones_since c c') = length (gains_since c c') ∧
        (length (tones_since c c') ≤ sum_list (length ∘ keys <$> createNoteData))%nat.
Proof.
  cbv zeta. split; [reflexivity |].
  exact (proj2 (score_creates_tones_behind 1 createNoteData
                  (resumed_in quantum_clock))
           (mkContext 0 running quantum_clock 0 [] []) eq_refl).
Defined.
